(** * Pose algebra and action scheduler of the robot control core

    A shallow embedding of [lib/math/pose2d.py] and
    [lib/actions/action_scheduler.py].

    Python floats are idealised as real numbers ([R]): [math.sin],
    [math.cos] and [math.atan2] are the real functions, and arithmetic does
    not round.  Module [Binary64] repeats [Pose2d.plus] and
    [Transform2d.from_poses] with the machine's rounding, for the one law
    that rounding breaks.  Python exceptions are values of [result]. *)

From Stdlib Require Import Reals Lra String List.
From Stdlib Require Floats.PrimFloat.
From stdpp Require Import gmap strings list.

Set Warnings "-clear-no-such-hyp".
Set Warnings "-inexact-float".

Open Scope R_scope.

(** ** Exceptions *)

Inductive pyerror : Type :=
| AttributeError (cls attr : string)
| TypeError (what : string)
| KeyError
| RuntimeError (what : string)
| RecursionError.

Inductive result (A : Type) : Type :=
| Ok (a : A)
| Raise (e : pyerror).
Arguments Ok {A} a.
Arguments Raise {A} e.

Definition bind {A B : Type} (m : result A) (k : A -> result B) : result B :=
  match m with
  | Ok a => k a
  | Raise e => Raise e
  end.

Notation "'let*' x ':=' m 'in' k" := (bind m (fun x => k))
  (at level 10, x name, m at level 100, k at level 200).

Definition returns {A : Type} (m : result A) : Prop := exists a, m = Ok a.

(** ** Leaf classes that pose2d.py imports *)

Module Rotation2d.

(** Modelled from the spec: [rotation2d.py] is not part of the sources.
    Section 3: "angle (radians), normalized representation as
    (cos, sin)". *)
Record t : Type := mk { m_cos : R; m_sin : R }.

(** Modelled from the spec: the constructor [Rotation2d(angle)] of the
    missing rotation2d.py; section 3 represents the angle by its cosine
    and sine. *)
Definition of_angle (angle : R) : t := mk (cos angle) (sin angle).

(** Modelled from the spec: the constructor [Rotation2d()] of the missing
    rotation2d.py; section 4.1, "identity is angle 0". *)
Definition zero : t := of_angle 0.

(** Modelled from the spec: [Rotation2d.plus] of the missing rotation2d.py;
    section 4.1, "composes two rotations by complex multiplication:
    (cos1 cos2 - sin1 sin2, sin1 cos2 + cos1 sin2)". *)
Definition plus (a b : t) : t :=
  mk (m_cos a * m_cos b - m_sin a * m_sin b)
     (m_sin a * m_cos b + m_cos a * m_sin b).

(** Modelled from the spec: [Rotation2d.unary_minus] of the missing
    rotation2d.py; section 4.1, "negates the angle", which keeps the cosine
    and flips the sign of the sine. *)
Definition unary_minus (a : t) : t := mk (m_cos a) (- m_sin a).

(** Modelled from the spec: [Rotation2d.minus] of the missing rotation2d.py;
    section 4.1, "this.plus(other.unary_minus())". *)
Definition minus (a b : t) : t := plus a (unary_minus b).

(** Modelled from the spec: the invariant of section 3 on the missing
    class, "cos^2 + sin^2 = 1". *)
Definition normalized (a : t) : Prop := m_cos a * m_cos a + m_sin a * m_sin a = 1.

End Rotation2d.

Module Translation2d.

(** Modelled from the spec: [translation2d.py] is not part of the sources.
    Section 3: "(x, y) real-valued coordinates". *)
Record t : Type := mk { x : R; y : R }.

(** Modelled from the spec: the constructor [Translation2d()] of the
    missing translation2d.py; section 4.3, "zero translation". *)
Definition zero : t := mk 0 0.

(** Modelled from the spec: [Translation2d.plus] of the missing
    translation2d.py; section 4.2, "2D vector arithmetic". *)
Definition plus (a b : t) : t := mk (x a + x b) (y a + y b).

(** Modelled from the spec: [Translation2d.minus] of the missing
    translation2d.py; section 4.2, "vector subtraction". *)
Definition minus (a b : t) : t := mk (x a - x b) (y a - y b).

(** Modelled from the spec: [Translation2d.unary_minus] of the missing
    translation2d.py; section 4.2. *)
Definition unary_minus (a : t) : t := mk (- x a) (- y a).

(** Modelled from the spec: [Translation2d.rotate_by] of the missing
    translation2d.py; section 4.2, "applies the 2x2 rotation matrix:
    x' = x cos - y sin, y' = x sin + y cos". *)
Definition rotate_by (a : t) (r : Rotation2d.t) : t :=
  mk (x a * Rotation2d.m_cos r - y a * Rotation2d.m_sin r)
     (x a * Rotation2d.m_sin r + y a * Rotation2d.m_cos r).

End Translation2d.

(** Modelled from the spec: [twist2d.py] is not part of the sources.
    Section 3: "(dx, dy, dtheta)", a local-frame displacement. *)
Record Twist2d : Type := mkTwist2d { dx : R; dy : R; dtheta : R }.

(** [math.atan2(y, x)] on the reals. *)
Definition atan2 (y x : R) : R :=
  if Rlt_dec 0 x then atan (y / x)
  else if Rlt_dec x 0 then
    (if Rle_dec 0 y then atan (y / x) + PI else atan (y / x) - PI)
  else if Rlt_dec 0 y then PI / 2
  else if Rlt_dec y 0 then - (PI / 2)
  else 0.

(** ** The two classes of pose2d.py *)

Record Pose2d : Type := mkPose2d {
  translation : Translation2d.t;
  rotation : Rotation2d.t
}.

Record Transform2d : Type := mkTransform2d {
  m_translation : Translation2d.t;
  m_rotation : Rotation2d.t
}.

(** [Pose2d.__init__(self, x=0.0, y=0.0, rotation=None)] *)
Definition Pose2d_init (x y : R) (rotation : option Rotation2d.t) : Pose2d :=
  let rotation :=
    match rotation with
    | None => Rotation2d.of_angle 0
    | Some r => r
    end in
  {| translation := Translation2d.mk x y; rotation := rotation |}.

(** [Pose2d()] *)
Definition Pose2d_default : Pose2d := Pose2d_init 0 0 None.

(** [Transform2d.__init__(self, translation=None, rotation=None)]: the
    argument is [None] for [Transform2d()] and the pair of the two
    components for [Transform2d(translation, rotation)], the only two ways
    the sources call it. *)
Definition Transform2d_init (args : option (Translation2d.t * Rotation2d.t)) : Transform2d :=
  match args with
  | None => {| m_translation := Translation2d.zero; m_rotation := Rotation2d.zero |}
  | Some (translation, rotation) =>
      {| m_translation := translation; m_rotation := rotation |}
  end.

(** ** Attribute lookup

    Python resolves [obj.name] at run time.  A value is one of the objects
    the module handles; a name that is neither an instance attribute nor
    defined in the class raises [AttributeError]. *)

Inductive pyval : Type :=
| PyFloat (r : R)
| PyTranslation2d (t : Translation2d.t)
| PyRotation2d (r : Rotation2d.t)
| PyMethod (cls name : string).

(** Names defined in the body of [class Pose2d] (lines 16-70). *)
Definition Pose2d_methods : list string :=
  ["__init__"; "plus"; "minus"; "relative_to"; "get_translation"; "get_x";
   "get_y"; "get_rotation"; "rotate_by"; "exp"]%string.

(** Names defined in the body of [class Transform2d] (lines 75-178). *)
Definition Transform2d_methods : list string :=
  ["__init__"; "from_poses"; "from_coordinates"; "times"; "div"; "plus";
   "get_translation"; "get_x"; "get_y"; "get_rotation"; "inverse";
   "__str__"; "__eq__"; "__hash__"]%string.

Definition defines (methods : list string) (name : string) : bool :=
  existsb (String.eqb name) methods.

Definition Pose2d_getattr (p : Pose2d) (name : string) : result pyval :=
  if (name =? "translation")%string then Ok (PyTranslation2d (translation p))
  else if (name =? "rotation")%string then Ok (PyRotation2d (rotation p))
  else if defines Pose2d_methods name then Ok (PyMethod "Pose2d" name)
  else Raise (AttributeError "Pose2d" name).

Definition Transform2d_getattr (t : Transform2d) (name : string) : result pyval :=
  if (name =? "m_translation")%string then Ok (PyTranslation2d (m_translation t))
  else if (name =? "m_rotation")%string then Ok (PyRotation2d (m_rotation t))
  else if defines Transform2d_methods name then Ok (PyMethod "Transform2d" name)
  else Raise (AttributeError "Transform2d" name).

(** Unpacking a looked-up value at the type the caller uses it at. *)
Definition as_translation (v : pyval) : result Translation2d.t :=
  match v with PyTranslation2d t => Ok t | _ => Raise (TypeError "Translation2d") end.
Definition as_rotation (v : pyval) : result Rotation2d.t :=
  match v with PyRotation2d r => Ok r | _ => Raise (TypeError "Rotation2d") end.

(** ** Pose2d *)

(** [Pose2d.plus], lines 22-25. *)
Definition Pose2d_plus (self : Pose2d) (other : Transform2d) : Pose2d :=
  let new_translation :=
    Translation2d.plus (translation self)
      (Translation2d.rotate_by (m_translation other) (rotation self)) in
  let new_rotation := Rotation2d.plus (m_rotation other) (rotation self) in
  Pose2d_init (Translation2d.x new_translation) (Translation2d.y new_translation)
              (Some new_rotation).

(** [Pose2d.relative_to], lines 31-33.  The method builds a [Transform2d]
    from [other] and then reads [transform.translation] and
    [transform.rotation]; [self] is not used. *)
Definition Pose2d_relative_to (self other : Pose2d) : result Pose2d :=
  let transform := Transform2d_init (Some (translation other, rotation other)) in
  let* tx := bind (Transform2d_getattr transform "translation") as_translation in
  let* ty := bind (Transform2d_getattr transform "translation") as_translation in
  let* r := bind (Transform2d_getattr transform "rotation") as_rotation in
  Ok (Pose2d_init (Translation2d.x tx) (Translation2d.y ty) (Some r)).

(** [Pose2d.minus], lines 27-29. *)
Definition Pose2d_minus (self other : Pose2d) : result Transform2d :=
  let* relative_pose := Pose2d_relative_to self other in
  Ok (Transform2d_init (Some (translation relative_pose, rotation relative_pose))).

Definition Pose2d_get_translation (self : Pose2d) : Translation2d.t := translation self.
Definition Pose2d_get_x (self : Pose2d) : R := Translation2d.x (translation self).
Definition Pose2d_get_y (self : Pose2d) : R := Translation2d.y (translation self).
Definition Pose2d_get_rotation (self : Pose2d) : Rotation2d.t := rotation self.

(** [Pose2d.exp], lines 50-70. *)
Definition Pose2d_exp (self : Pose2d) (twist : Twist2d) : Pose2d :=
  let dx := twist.(dx) in
  let dy := twist.(dy) in
  let dtheta := twist.(dtheta) in
  let sin_theta := sin dtheta in
  let cos_theta := cos dtheta in
  let '(s, c) :=
    if Rlt_dec (Rabs dtheta) 1E-9
    then (1.0 - 1.0 / 6.0 * dtheta * dtheta, 0.5 * dtheta)
    else (sin_theta / dtheta, (1 - cos_theta) / dtheta) in
  let transform :=
    Transform2d_init
      (Some (Translation2d.mk (dx * s - dy * c) (dx * c + dy * s),
             Rotation2d.of_angle (atan2 sin_theta cos_theta))) in
  Pose2d_plus self transform.

(** ** Transform2d *)

Definition Transform2d_get_translation (self : Transform2d) : Translation2d.t :=
  m_translation self.
Definition Transform2d_get_rotation (self : Transform2d) : Rotation2d.t :=
  m_rotation self.

(** [Transform2d.from_poses], lines 89-101. *)
Definition Transform2d_from_poses (initial last : Pose2d) : Transform2d :=
  let translation :=
    Translation2d.minus (Pose2d_get_translation last) (Pose2d_get_translation initial) in
  let rotation :=
    Rotation2d.minus (Pose2d_get_rotation last) (Pose2d_get_rotation initial) in
  let rotated_translation :=
    Translation2d.rotate_by translation
      (Rotation2d.unary_minus (Pose2d_get_rotation initial)) in
  Transform2d_init (Some (rotated_translation, rotation)).

(** [Transform2d.inverse], lines 161-166. *)
Definition Transform2d_inverse (self : Transform2d) : Transform2d :=
  Transform2d_init
    (Some (Translation2d.rotate_by
             (Translation2d.unary_minus (Transform2d_get_translation self))
             (Rotation2d.unary_minus (Transform2d_get_rotation self)),
           Rotation2d.unary_minus (Transform2d_get_rotation self))).

(** [Transform2d.from_coordinates], lines 103-114. *)
Definition Transform2d_from_coordinates (x y : R) (rotation : Rotation2d.t) : Transform2d :=
  let translation := Translation2d.mk x y in
  Transform2d_init (Some (translation, rotation)).

Section TransformPlus.

(** [Transform2d.plus] calls [transform_by] on a [Pose2d].  No method of
    that name is defined in the sources; the body a [Pose2d.transform_by]
    would have is left open, and the call goes through the attribute
    lookup of the class as it is written. *)
Variable transform_by : Pose2d -> Transform2d -> result Pose2d.

Definition Pose2d_call_transform_by (p : Pose2d) (arg : Transform2d) : result Pose2d :=
  let* _ := Pose2d_getattr p "transform_by" in
  transform_by p arg.

(** [Transform2d.plus], lines 134-143. *)
Definition Transform2d_plus (self other : Transform2d) : result Transform2d :=
  let initial_pose := Pose2d_default in
  let* p := Pose2d_call_transform_by initial_pose self in
  let* final_pose := Pose2d_call_transform_by p other in
  Ok (Transform2d_from_poses initial_pose final_pose).

End TransformPlus.


Close Scope R_scope.

(** ** Actions

    An action is an object with the four lifecycle methods.  Its identity
    is a number; the methods act on the state [W] of whatever the actions
    read and write (their own fields and the systems they drive).  The
    scheduler itself is not part of [W]: an action does not reach back into
    the scheduler that runs it. *)

Inductive call : Type :=
| Initialize (a : nat)
| Execute (a : nat)
| IsFinished (a : nat) (answer : bool)
| End (a : nat) (interrupted : bool).

Definition call_action (c : call) : nat :=
  match c with
  | Initialize a | Execute a | IsFinished a _ | End a _ => a
  end.

Definition calls_of (a : nat) (l : list call) : list call :=
  List.filter (fun c => Nat.eqb (call_action c) a) l.

Definition is_execute (c : call) : bool :=
  match c with Execute _ => true | _ => false end.
Definition is_end (c : call) : bool :=
  match c with End _ _ => true | _ => false end.

Definition is_query (c : call) : bool :=
  match c with IsFinished _ _ => true | _ => false end.

(** The calls a tick may make while the actions in [s] are active:
    [execute()] and [is_finished()] on a member, [end(False)] on a member,
    and nothing else. *)
Definition tick_call (s : gset nat) (c : call) : Prop :=
  match c with
  | Initialize _ => False
  | Execute a => a ∈ s
  | IsFinished a _ => a ∈ s
  | End a interrupted => a ∈ s /\ interrupted = false
  end.

Definition count_calls (f : call -> bool) (a : nat) (l : list call) : nat :=
  length (List.filter f (calls_of a l)).

Record Action (W : Type) : Type := mkAction {
  initialize : W -> W;
  execute : W -> W;
  is_finished : W -> bool * W;
  end_ : bool -> W -> W
}.
Arguments mkAction {W}.
Arguments initialize {W}.
Arguments execute {W}.
Arguments is_finished {W}.
Arguments end_ {W}.

(** [WaitUntilAction], wait_until_action.py: three empty methods, and
    [is_finished] returns what the condition returns. *)
Definition WaitUntilAction {W : Type} (condition : W -> bool * W) : Action W :=
  {| initialize := fun w => w;
     execute := fun w => w;
     end_ := fun _ w => w;
     is_finished := condition |}.

(** What a run of the program has done so far outside the scheduler: the
    state of the actions' world and the method calls made, oldest first. *)
Record env (W : Type) : Type := mkEnv {
  world : W;
  calls : list call
}.
Arguments mkEnv {W}.
Arguments world {W}.
Arguments calls {W}.

(** The instance attributes [__init__] assigns. *)
Record ActionScheduler : Type := mkScheduler {
  action : option nat;
  scheduled_actions : gset nat
}.

(** [set.remove(x)] raises [KeyError] when [x] is not a member. *)
Definition set_remove (x : nat) (s : gset nat) : result (gset nat) :=
  if decide (x ∈ s) then Ok (s ∖ {[x]}) else Raise KeyError.

Section Scheduler.

Context {W : Type}.

(** The action object behind each identity. *)
Variable actions : nat -> Action W.

(** The calls one iteration of the first loop of [run] makes. *)
Definition tick_calls_of (a : nat) (finished : bool) : list call :=
  Execute a :: IsFinished a finished :: (if finished then [End a false] else []).

Definition do_initialize (a : nat) (e : env W) : env W :=
  mkEnv (initialize (actions a) (world e)) (calls e ++ [Initialize a]).

Definition do_execute (a : nat) (e : env W) : env W :=
  mkEnv (execute (actions a) (world e)) (calls e ++ [Execute a]).

Definition do_is_finished (a : nat) (e : env W) : bool * env W :=
  let '(answer, w) := is_finished (actions a) (world e) in
  (answer, mkEnv w (calls e ++ [IsFinished a answer])).

Definition do_end (a : nat) (interrupted : bool) (e : env W) : env W :=
  mkEnv (end_ (actions a) interrupted (world e)) (calls e ++ [End a interrupted]).

(** [ActionScheduler.__init__], lines 12-14. *)
Definition ActionScheduler_init : ActionScheduler :=
  {| action := None; scheduled_actions := ∅ |}.

(** [ActionScheduler.schedule_action], lines 16-18. *)
Definition schedule_action (self : ActionScheduler) (a : nat) (e : env W)
  : ActionScheduler * env W :=
  let self := {| action := action self;
                 scheduled_actions := {[a]} ∪ scheduled_actions self |} in
  (self, do_initialize a e).

(** The body of the first loop of [run], lines 24-27. *)
Definition run_body (st : env W * list nat) (a : nat) : env W * list nat :=
  let '(e, actions_to_remove) := st in
  let e := do_execute a e in
  let '(finished, e) := do_is_finished a e in
  if finished
  then (do_end a false e, actions_to_remove ++ [a])
  else (e, actions_to_remove).

(** The first loop of [run], over the actions in the order the set
    yields them. *)
Definition run_pass (order : list nat) (e : env W) : env W * list nat :=
  fold_left run_body order (e, []).

(** The second loop of [run], lines 29-30. *)
Fixpoint run_remove (actions_to_remove : list nat) (s : gset nat) : result (gset nat) :=
  match actions_to_remove with
  | [] => Ok s
  | a :: rest => let* s := set_remove a s in run_remove rest s
  end.

(** [ActionScheduler.run], lines 20-30.  Python leaves the iteration
    order of a set open; [elements] is one enumeration of the members
    without repetition, and nothing below depends on which one. *)
Definition run (self : ActionScheduler) (e : env W) : result (ActionScheduler * env W) :=
  let '(e, actions_to_remove) := run_pass (elements (scheduled_actions self)) e in
  let* s := run_remove actions_to_remove (scheduled_actions self) in
  Ok ({| action := action self; scheduled_actions := s |}, e).

(** [n] ticks in a row. *)
Fixpoint run_ticks (n : nat) (self : ActionScheduler) (e : env W)
  : result (ActionScheduler * env W) :=
  match n with
  | O => Ok (self, e)
  | S n => let* st := run self e in run_ticks n (fst st) (snd st)
  end.

(** *** The class and its instance

    [_instance] is a class attribute; the instance it names lives in
    the object store.  An object fresh from [object.__new__] has no
    instance attribute yet ([None] below). *)
Record interp : Type := mkInterp {
  _instance : option nat;
  objects : list (option ActionScheduler);
  outside : env W
}.

(** [ActionScheduler.__new__], lines 7-10. *)
Definition ActionScheduler_new (st : interp) : nat * interp :=
  match _instance st with
  | None =>
      let l := length (objects st) in
      (l, mkInterp (Some l) (objects st ++ [None]) (outside st))
  | Some l => (l, st)
  end.

(** [__init__] run on the object at [self]: both attributes are assigned. *)
Definition ActionScheduler_init_at (self : nat) (st : interp) : interp :=
  mkInterp (_instance st) (<[self := Some ActionScheduler_init]> (objects st)) (outside st).

(** Evaluating [ActionScheduler()]: [__new__], then [__init__] on the
    object [__new__] returned, which is an instance of the class. *)
Definition ActionScheduler_call (st : interp) : nat * interp :=
  let '(self, st) := ActionScheduler_new st in
  (self, ActionScheduler_init_at self st).

(** The attributes of the object at [self]. *)
Definition fields_at (st : interp) (self : nat) : result ActionScheduler :=
  match objects st !! self with
  | Some (Some f) => Ok f
  | _ => Raise (AttributeError "ActionScheduler" "scheduled_actions")
  end.

(** [self.schedule_action(a)] on the object at [self]. *)
Definition obj_schedule_action (self a : nat) (st : interp) : result interp :=
  let* f := fields_at st self in
  let '(f, e) := schedule_action f a (outside st) in
  Ok (mkInterp (_instance st) (<[self := Some f]> (objects st)) e).

(** [self.run()] on the object at [self]. *)
Definition obj_run (self : nat) (st : interp) : result interp :=
  let* f := fields_at st self in
  let* r := run f (outside st) in
  Ok (mkInterp (_instance st) (<[self := Some (fst r)]> (objects st)) (snd r)).

(** A client program driving the scheduler object. *)
Inductive op : Type :=
| Schedule (a : nat)
| Run.

Definition exec_op (self : nat) (o : op) (st : interp) : result interp :=
  match o with
  | Schedule a => obj_schedule_action self a st
  | Run => obj_run self st
  end.

Fixpoint exec (self : nat) (prog : list op) (st : interp) : result interp :=
  match prog with
  | [] => Ok st
  | o :: prog => let* st := exec_op self o st in exec self prog st
  end.

(** A run of a client: each program starts by evaluating
    [ActionScheduler()] and then drives the object it got. *)
Fixpoint sessions (progs : list (list op)) (st : interp) : result interp :=
  match progs with
  | [] => Ok st
  | prog :: rest =>
      let '(l, st) := ActionScheduler_call st in
      let* st := exec l prog st in
      sessions rest st
  end.

(** The class attribute names an initialised object of the store. *)
Definition holds_instance (st : interp) (l : nat) : Prop :=
  _instance st = Some l /\ exists f, objects st !! l = Some (Some f).

(** The class attribute, when set, names an object of the store. *)
Definition well_formed (st : interp) : Prop :=
  forall l, _instance st = Some l -> l < length (objects st).

(** What one pass over a duplicate-free list of actions does: [new] are
    the calls it makes and [fin] the actions it collects for removal. *)
Definition pass_outcome (order : list nat) (new : list call) (fin : list nat) : Prop :=
  NoDup fin /\
  (forall a, a ∈ fin -> a ∈ order) /\
  (forall a, a ∉ order -> calls_of a new = []) /\
  (forall a, a ∈ order ->
     exists b w, b = fst (is_finished (actions a) w) /\
                 calls_of a new = tick_calls_of a b /\
                 (a ∈ fin <-> b = true)).

End Scheduler.
Arguments interp W : clear implicits.
Arguments op : clear implicits.

(** ** The pose arithmetic in binary64

    Python's [float] is IEEE 754 binary64.  The definitions below are the
    ones above with [+], [-] and [*] rounding as the machine does.  A
    rotation is given by the two floats [math.cos] and [math.sin] return
    for its angle; for [Rotation2d(0.0)] these are 1.0 and 0.0. *)

Module Binary64.

Import PrimFloat.

Record Rotation2d : Type := mkRotation2d { m_cos : float; m_sin : float }.
Record Translation2d : Type := mkTranslation2d { x : float; y : float }.
Record Pose2d : Type := mkPose2d { translation : Translation2d; rotation : Rotation2d }.
Record Transform2d : Type := mkTransform2d {
  m_translation : Translation2d;
  m_rotation : Rotation2d
}.

(** [Rotation2d(0.0)] *)
Definition Rotation2d_zero : Rotation2d := mkRotation2d 1 0.

Definition Rotation2d_plus (a b : Rotation2d) : Rotation2d :=
  mkRotation2d (m_cos a * m_cos b - m_sin a * m_sin b)
               (m_sin a * m_cos b + m_cos a * m_sin b).
Definition Rotation2d_unary_minus (a : Rotation2d) : Rotation2d :=
  mkRotation2d (m_cos a) (- m_sin a).
Definition Rotation2d_minus (a b : Rotation2d) : Rotation2d :=
  Rotation2d_plus a (Rotation2d_unary_minus b).

Definition Translation2d_plus (a b : Translation2d) : Translation2d :=
  mkTranslation2d (x a + x b) (y a + y b).
Definition Translation2d_minus (a b : Translation2d) : Translation2d :=
  mkTranslation2d (x a - x b) (y a - y b).
Definition Translation2d_rotate_by (a : Translation2d) (r : Rotation2d) : Translation2d :=
  mkTranslation2d (x a * m_cos r - y a * m_sin r) (x a * m_sin r + y a * m_cos r).

(** [Pose2d.__init__], lines 16-20. *)
Definition Pose2d_init (x0 y0 : float) (rotation0 : option Rotation2d) : Pose2d :=
  let rotation0 :=
    match rotation0 with
    | None => Rotation2d_zero
    | Some r => r
    end in
  mkPose2d (mkTranslation2d x0 y0) rotation0.

(** [Pose2d.plus], lines 22-25. *)
Definition Pose2d_plus (self : Pose2d) (other : Transform2d) : Pose2d :=
  let new_translation :=
    Translation2d_plus (translation self)
      (Translation2d_rotate_by (m_translation other) (rotation self)) in
  let new_rotation := Rotation2d_plus (m_rotation other) (rotation self) in
  Pose2d_init (x new_translation) (y new_translation) (Some new_rotation).

(** [Transform2d.from_poses], lines 89-101. *)
Definition Transform2d_from_poses (initial last : Pose2d) : Transform2d :=
  let translation0 := Translation2d_minus (translation last) (translation initial) in
  let rotation0 := Rotation2d_minus (rotation last) (rotation initial) in
  let rotated_translation :=
    Translation2d_rotate_by translation0 (Rotation2d_unary_minus (rotation initial)) in
  mkTransform2d rotated_translation rotation0.


End Binary64.

(** ** Actions that reach the scheduler

    Nothing in [run] keeps a lifecycle method from calling the scheduler
    that is running it, or from raising.  A method is a script: it ends by
    returning or raising, or it makes a call on the scheduler and goes on
    from the world that call leaves.  The two calls are the scheduler's
    other entry points: evaluating [ActionScheduler()], and
    [schedule_action] on the instance. *)

Inductive request : Type :=
| Construct
| ScheduleOn (b : nat).

Inductive reaction (W A : Type) : Type :=
| Returns (w : W) (a : A)
| Raises (w : W) (e : pyerror)
| Calls (w : W) (r : request) (k : W -> reaction W A).
Arguments Returns {W A} w a.
Arguments Raises {W A} w e.
Arguments Calls {W A} w r k.

Record ReentrantAction (W : Type) : Type := mkReentrant {
  r_initialize : W -> reaction W unit;
  r_execute : W -> reaction W unit;
  r_is_finished : W -> reaction W bool;
  r_end : bool -> W -> reaction W unit
}.
Arguments mkReentrant {W}.
Arguments r_initialize {W}.
Arguments r_execute {W}.
Arguments r_is_finished {W}.
Arguments r_end {W}.

(** How a call ended: the world it left, and its value or its exception. *)
Inductive ended (W A : Type) : Type :=
| Finished (w : W) (a : A)
| Threw (w : W) (e : pyerror).
Arguments Finished {W A} w a.
Arguments Threw {W A} w e.

(** The scheduler's set while a pass may be going on: [bound] is the set
    object [self.scheduled_actions] names now, [iter] is the set object the
    [for] loop of line 23 iterates, and [attached] says that the two are
    still the same object. *)
Record sets : Type := mkSets {
  bound : gset nat;
  iter : gset nat;
  attached : bool
}.

(** [self.scheduled_actions.add(b)], line 17. *)
Definition sets_add (b : nat) (ps : sets) : sets :=
  {| bound := {[b]} ∪ bound ps;
     iter := if attached ps then {[b]} ∪ iter ps else iter ps;
     attached := attached ps |}.

(** [ActionScheduler()] evaluated again: [__init__] binds a fresh empty
    set (line 14); a loop in progress keeps the object it started on. *)
Definition sets_construct (ps : sets) : sets :=
  {| bound := ∅; iter := iter ps; attached := false |}.

Section Reentrant.

Context {W : Type}.
Variable actions : nat -> ReentrantAction W.

(** Running a script.  [fuel] is the depth of nested [initialize()] calls
    the interpreter allows before it raises [RecursionError]. *)
Fixpoint perform (fuel : nat) (A : Type) (r : reaction W A) (ps : sets) (log : list call)
  {struct fuel} : ended W A * sets * list call :=
  (fix go (r : reaction W A) (ps : sets) (log : list call) {struct r}
     : ended W A * sets * list call :=
     match r with
     | Returns w a => (Finished w a, ps, log)
     | Raises w e => (Threw w e, ps, log)
     | Calls w Construct k => go (k w) (sets_construct ps) log
     | Calls w (ScheduleOn b) k =>
         match fuel with
         | O => (Threw w RecursionError, sets_add b ps, log ++ [Initialize b])
         | S fuel =>
             match perform fuel unit (r_initialize (actions b) w)
                           (sets_add b ps) (log ++ [Initialize b]) with
             | (Finished w' _, ps', log') => go (k w') ps' log'
             | (Threw w' e, ps', log') => (Threw w' e, ps', log')
             end
         end
     end) r ps log.

(** The state of a pass: world, sets, record of calls, actions to remove. *)
Record pass_state : Type := mkPass {
  p_world : W;
  p_sets : sets;
  p_log : list call;
  p_remove : list nat
}.

(** The body of the first loop of [run], lines 24-27. *)
Definition reentrant_body (fuel : nat) (a : nat) (st : pass_state)
  : option pyerror * pass_state :=
  match perform fuel unit (r_execute (actions a) (p_world st))
                (p_sets st) (p_log st ++ [Execute a]) with
  | (Threw w e, ps, log) => (Some e, mkPass w ps log (p_remove st))
  | (Finished w _, ps, log) =>
      match perform fuel bool (r_is_finished (actions a) w) ps log with
      | (Threw w e, ps, log) => (Some e, mkPass w ps log (p_remove st))
      | (Finished w false, ps, log) =>
          (None, mkPass w ps (log ++ [IsFinished a false]) (p_remove st))
      | (Finished w true, ps, log) =>
          match perform fuel unit (r_end (actions a) false w) ps
                        (log ++ [IsFinished a true; End a false]) with
          | (Threw w e, ps, log) => (Some e, mkPass w ps log (p_remove st))
          | (Finished w _, ps, log) => (None, mkPass w ps log (p_remove st ++ [a]))
          end
      end
  end.

(** The first loop of [run].  Before it yields an element, and before it
    stops, the set iterator compares the size of its set with the size it
    started on and raises [RuntimeError] when they differ. *)
Fixpoint reentrant_pass (fuel : nat) (size0 : nat) (order : list nat) (st : pass_state)
  : option pyerror * pass_state :=
  if negb (Nat.eqb (size (iter (p_sets st))) size0)
  then (Some (RuntimeError "Set changed size during iteration"), st)
  else
    match order with
    | [] => (None, st)
    | a :: rest =>
        match reentrant_body fuel a st with
        | (Some e, st) => (Some e, st)
        | (None, st) => reentrant_pass fuel size0 rest st
        end
    end.

(** The second loop of [run], lines 29-30, on the set bound at that time. *)
Fixpoint reentrant_remove (actions_to_remove : list nat) (s : gset nat)
  : option pyerror * gset nat :=
  match actions_to_remove with
  | [] => (None, s)
  | a :: rest =>
      if decide (a ∈ s) then reentrant_remove rest (s ∖ {[a]})
      else (Some KeyError, s)
  end.

(** [ActionScheduler.run], lines 20-30: what it raised, if anything, and
    the scheduler and its surroundings as it left them. *)
Definition reentrant_run (fuel : nat) (self : ActionScheduler) (e : env W)
  : option pyerror * ActionScheduler * env W :=
  let s := scheduled_actions self in
  let start := mkPass (world e) (mkSets s s true) (calls e) [] in
  match reentrant_pass fuel (size s) (elements s) start with
  | (Some err, st) =>
      (Some err,
       {| action := if attached (p_sets st) then action self else None;
          scheduled_actions := bound (p_sets st) |},
       mkEnv (p_world st) (p_log st))
  | (None, st) =>
      let '(err, s') := reentrant_remove (p_remove st) (bound (p_sets st)) in
      (err,
       {| action := if attached (p_sets st) then action self else None;
          scheduled_actions := s' |},
       mkEnv (p_world st) (p_log st))
  end.

(** Ticks in a row, stopping at the first exception. *)
Fixpoint reentrant_ticks (fuel n : nat) (self : ActionScheduler) (e : env W)
  : option pyerror * ActionScheduler * env W :=
  match n with
  | O => (None, self, e)
  | S n =>
      match reentrant_run fuel self e with
      | (None, self', e') => reentrant_ticks fuel n self' e'
      | stopped => stopped
      end
  end.

(** A script that returns at once. *)
Definition plain {A : Type} (r : reaction W A) : Prop := exists w a, r = Returns w a.

(** The lifecycle methods of the actions in [s] return without raising and
    without calling the scheduler. *)
Definition well_behaved (s : gset nat) : Prop :=
  forall a, a ∈ s ->
    forall w, plain (r_initialize (actions a) w) /\ plain (r_execute (actions a) w) /\
              plain (r_is_finished (actions a) w) /\
              forall interrupted, plain (r_end (actions a) interrupted w).

Definition reaction_world {A : Type} (r : reaction W A) : W :=
  match r with
  | Returns w _ | Raises w _ | Calls w _ _ => w
  end.

Definition reaction_value {A : Type} (default : A) (r : reaction W A) : A :=
  match r with
  | Returns _ a => a
  | _ => default
  end.

(** The action as the scheduler sees it when its methods return at once. *)
Definition as_plain (a : nat) : Action W :=
  {| initialize := fun w => reaction_world (r_initialize (actions a) w);
     execute := fun w => reaction_world (r_execute (actions a) w);
     is_finished := fun w => (reaction_value false (r_is_finished (actions a) w),
                              reaction_world (r_is_finished (actions a) w));
     end_ := fun interrupted w => reaction_world (r_end (actions a) interrupted w) |}.

End Reentrant.

(** The turn of one action in a tick, in the words of section 4.6 of the
    spec: call [execute()], then [is_finished()]; if finished, call
    [end(False)]. *)
Definition spec_turn {W : Type} (a : Action W) (w : W) : W * bool :=
  let w := execute a w in
  let '(finished, w) := is_finished a w in
  (if finished then end_ a false w else w, finished).

(** The pass of section 4.6 over the active actions in a given order: the
    world it leaves, the calls it makes, and the actions marked for
    removal. *)
Fixpoint spec_pass {W : Type} (actions : nat -> Action W) (order : list nat) (w : W)
  : W * list call * list nat :=
  match order with
  | [] => (w, [], [])
  | a :: rest =>
      let '(w, finished) := spec_turn (actions a) w in
      let '(w', cs, marked) := spec_pass actions rest w in
      (w',
       Execute a :: IsFinished a finished :: (if finished then [End a false] else []) ++ cs,
       (if finished then [a] else []) ++ marked)
  end.

(** Actions for the examples: one that schedules action 1 from
    [execute()] and reports finished, one that evaluates
    [ActionScheduler()] from [end()], one that finishes at once and one
    that never finishes; every other method returns at once. *)
Definition scheduling_action : ReentrantAction unit :=
  {| r_initialize := fun w => Returns w tt;
     r_execute := fun w => Calls w (ScheduleOn 1) (fun w => Returns w tt);
     r_is_finished := fun w => Returns w true;
     r_end := fun _ w => Returns w tt |}.

Definition constructing_action : ReentrantAction unit :=
  {| r_initialize := fun w => Returns w tt;
     r_execute := fun w => Returns w tt;
     r_is_finished := fun w => Returns w true;
     r_end := fun _ w => Calls w Construct (fun w => Returns w tt) |}.

Definition finishing_action : ReentrantAction unit :=
  {| r_initialize := fun w => Returns w tt;
     r_execute := fun w => Returns w tt;
     r_is_finished := fun w => Returns w true;
     r_end := fun _ w => Returns w tt |}.

Definition quiet_action : ReentrantAction unit :=
  {| r_initialize := fun w => Returns w tt;
     r_execute := fun w => Returns w tt;
     r_is_finished := fun w => Returns w false;
     r_end := fun _ w => Returns w tt |}.

(** Two waiting actions for the examples: action 0 never finishes, every other one finishes
    at once. *)
Definition demo_actions (a : nat) : Action unit :=
  WaitUntilAction (fun w => (negb (Nat.eqb a 0), w)).

(** * Properties of the pose algebra *)

Open Scope R_scope.

(** ** Attribute lookups that fail *)

Lemma Transform2d_getattr_translation (t : Transform2d) :
  Transform2d_getattr t "translation"
  = Raise (AttributeError "Transform2d" "translation").
Proof. reflexivity. Qed.

Lemma Pose2d_getattr_transform_by (p : Pose2d) :
  Pose2d_getattr p "transform_by" = Raise (AttributeError "Pose2d" "transform_by").
Proof. reflexivity. Qed.

Lemma Pose2d_relative_to_raises (a b : Pose2d) :
  Pose2d_relative_to a b = Raise (AttributeError "Transform2d" "translation").
Proof. reflexivity. Qed.

(** C1.  [a.minus(b)] does not return the transform that maps [b] to [a]:
    for every pair of poses, [relative_to] raises [AttributeError] at
    [transform.translation], and so does [minus]; no transform [T] with
    [b.plus(T) == a] is returned. *)
Theorem Pose2d_minus_raises (a b : Pose2d) :
  Pose2d_relative_to a b = Raise (AttributeError "Transform2d" "translation") /\
  Pose2d_minus a b = Raise (AttributeError "Transform2d" "translation") /\
  ~ (exists T, Pose2d_minus a b = Ok T /\ Pose2d_plus b T = a).
Proof.
  pose proof (Pose2d_relative_to_raises a b) as H.
  assert (H' : Pose2d_minus a b = Raise (AttributeError "Transform2d" "translation")).
  { unfold Pose2d_minus. rewrite H. reflexivity. }
  split; [exact H|]. split; [exact H'|].
  intros [T [HT _]]. rewrite H' in HT. discriminate.
Qed.

(** C3.  [t.plus(t.inverse())] does not return the identity transform: for
    every transform, and whatever a [transform_by] method would compute,
    [Transform2d.plus] raises [AttributeError] when it looks [transform_by]
    up on the identity pose. *)
Theorem Transform2d_plus_inverse_raises
    (transform_by : Pose2d -> Transform2d -> result Pose2d) (t : Transform2d) :
  Transform2d_plus transform_by t (Transform2d_inverse t)
  = Raise (AttributeError "Pose2d" "transform_by") /\
  ~ returns (Transform2d_plus transform_by t (Transform2d_inverse t)).
Proof.
  assert (H : Transform2d_plus transform_by t (Transform2d_inverse t)
              = Raise (AttributeError "Pose2d" "transform_by")) by reflexivity.
  split; [exact H|]. intros [r Hr]. rewrite H in Hr. discriminate.
Qed.

(** C9.  [relative_to] does not return a new [Pose2d]: for every pose [p]
    and every argument it raises [AttributeError] at [transform.translation]
    before any pose is built, so the operation returns nothing. *)
Theorem relative_to_returns_no_new_pose (p q : Pose2d) :
  Pose2d_relative_to p q = Raise (AttributeError "Transform2d" "translation") /\
  ~ (exists r : Pose2d, Pose2d_relative_to p q = Ok r).
Proof.
  pose proof (Pose2d_relative_to_raises p q) as H.
  split; [exact H|]. intros [r Hr]. rewrite H in Hr. discriminate.
Qed.

(** ** The exponential map *)

Lemma atan2_0_1 : atan2 0 1 = 0.
Proof.
  unfold atan2. destruct (Rlt_dec 0 1) as [_|H]; [|exfalso; lra].
  replace (0 / 1) with 0 by field. apply atan_0.
Qed.

Lemma atan2_1_0 : atan2 1 0 = PI / 2.
Proof.
  unfold atan2.
  destruct (Rlt_dec 0 0) as [H|_]; [exfalso; lra|].
  destruct (Rlt_dec 0 1) as [_|H]; [reflexivity|exfalso; lra].
Qed.

Lemma half_pi_above_threshold : ~ Rabs (PI / 2) < 1E-9.
Proof. pose proof PI2_1. rewrite Rabs_pos_eq by lra. lra. Qed.

(** On a point of the unit circle [atan2] returns an angle with that
    cosine and sine. *)
Lemma sqrt_one_plus_ratio (x y : R) :
  x <> 0 -> x * x + y * y = 1 -> sqrt (1 + (y / x)²) = Rabs (/ x).
Proof.
  intros Hx H. rewrite <- sqrt_Rsqr_abs. f_equal. unfold Rsqr.
  transitivity ((x * x + y * y) / (x * x)); [field; assumption|].
  rewrite H. field. assumption.
Qed.

Lemma atan2_unit (x y : R) :
  x * x + y * y = 1 -> cos (atan2 y x) = x /\ sin (atan2 y x) = y.
Proof.
  intros H. unfold atan2.
  destruct (Rlt_dec 0 x) as [Hpos|Hnpos].
  - assert (Hx : x <> 0) by lra.
    rewrite cos_atan, sin_atan, (sqrt_one_plus_ratio x y Hx H).
    assert (0 < / x) by (apply Rinv_0_lt_compat; assumption).
    rewrite Rabs_pos_eq by lra. split; field; assumption.
  - destruct (Rlt_dec x 0) as [Hneg|Hnneg].
    + assert (Hx : x <> 0) by lra.
      assert (/ x < 0) by (apply Rinv_lt_0_compat; assumption).
      assert (Hs : sqrt (1 + (y / x)²) = - / x).
      { rewrite (sqrt_one_plus_ratio x y Hx H). apply Rabs_left. assumption. }
      destruct (Rle_dec 0 y).
      * rewrite neg_cos, neg_sin, cos_atan, sin_atan, Hs. split; field; assumption.
      * rewrite cos_minus, sin_minus, cos_PI, sin_PI, cos_atan, sin_atan, Hs.
        split; field; assumption.
    + assert (Hx : x = 0) by lra. subst x.
      assert (Hy : y * y = 1) by lra.
      destruct (Rlt_dec 0 y) as [Hy1|Hy1].
      * assert (y = 1) by nra. subst y. rewrite cos_PI2, sin_PI2. split; reflexivity.
      * destruct (Rlt_dec y 0) as [Hy2|Hy2].
        -- assert (y = -1) by nra. subst y.
           rewrite cos_neg, sin_neg, cos_PI2, sin_PI2. split; lra.
        -- exfalso. nra.
Qed.

Lemma of_angle_atan2 (theta : R) :
  Rotation2d.of_angle (atan2 (sin theta) (cos theta)) = Rotation2d.of_angle theta.
Proof.
  unfold Rotation2d.of_angle.
  destruct (atan2_unit (cos theta) (sin theta)) as [Hc Hs].
  { pose proof (sin2_cos2 theta) as H. unfold Rsqr in H. lra. }
  rewrite Hc, Hs. reflexivity.
Qed.

(** C4.  [p.exp(twist)] is [p.plus] of the transform whose translation is
    (dx s - dy c, dx c + dy s) and whose rotation is
    [Rotation2d(atan2(sin theta, cos theta))], with s = 1 - theta^2/6 and
    c = theta/2 when |theta| < 1e-9, and s = sin theta / theta and
    c = (1 - cos theta) / theta otherwise; that rotation is the rotation by
    theta. *)
Theorem exp_follows_exponential_map (p : Pose2d) (twist : Twist2d) :
  let theta := dtheta twist in
  let s := if Rlt_dec (Rabs theta) 1E-9 then 1 - theta * theta / 6 else sin theta / theta in
  let c := if Rlt_dec (Rabs theta) 1E-9 then theta / 2 else (1 - cos theta) / theta in
  Pose2d_exp p twist
  = Pose2d_plus p
      {| m_translation :=
           Translation2d.mk (dx twist * s - dy twist * c) (dx twist * c + dy twist * s);
         m_rotation := Rotation2d.of_angle (atan2 (sin theta) (cos theta)) |} /\
  Rotation2d.of_angle (atan2 (sin theta) (cos theta)) = Rotation2d.of_angle theta.
Proof.
  intros theta s c. subst theta s c. split; [|apply of_angle_atan2].
  unfold Pose2d_exp.
  destruct (Rlt_dec (Rabs (dtheta twist)) 1E-9); cbn [Transform2d_init].
  - replace 1.0 with 1 by lra. replace 6.0 with 6 by lra.
    replace 0.5 with (/ 2) by lra.
    do 2 f_equal. f_equal; field.
  - reflexivity.
Qed.

(** C8.  The zero twist leaves the default pose where it is. *)
Theorem exp_zero_twist : Pose2d_exp Pose2d_default (mkTwist2d 0 0 0) = Pose2d_default.
Proof.
  unfold Pose2d_exp. cbn [dx dy dtheta].
  destruct (Rlt_dec (Rabs 0) 1E-9) as [_|H].
  2:{ exfalso. apply H. rewrite Rabs_R0. lra. }
  rewrite sin_0, cos_0, atan2_0_1.
  unfold Pose2d_default, Pose2d_plus, Pose2d_init, Transform2d_init,
    Translation2d.rotate_by, Translation2d.plus,
    Rotation2d.plus, Rotation2d.of_angle.
  cbn. rewrite sin_0, cos_0. f_equal; f_equal; lra.
Qed.

(** C7.  A unit forward twist with a quarter turn ends on the arc, at
    (2/pi, 2/pi) with heading pi/2, and not at the Euler endpoint
    (1, 0, pi/2). *)
Theorem exp_quarter_circle :
  Pose2d_exp Pose2d_default (mkTwist2d 1.0 0.0 (PI / 2))
  = Pose2d_init (2 / PI) (2 / PI) (Some (Rotation2d.of_angle (PI / 2))) /\
  Pose2d_exp Pose2d_default (mkTwist2d 1.0 0.0 (PI / 2))
  <> Pose2d_init 1 0 (Some (Rotation2d.of_angle (PI / 2))).
Proof.
  assert (E : Pose2d_exp Pose2d_default (mkTwist2d 1.0 0.0 (PI / 2))
              = Pose2d_init (2 / PI) (2 / PI) (Some (Rotation2d.of_angle (PI / 2)))).
  { unfold Pose2d_exp. cbn [dx dy dtheta].
    destruct (Rlt_dec (Rabs (PI / 2)) 1E-9) as [H|_].
    { exfalso. exact (half_pi_above_threshold H). }
    rewrite sin_PI2, cos_PI2, atan2_1_0.
    unfold Pose2d_default, Pose2d_plus, Pose2d_init, Transform2d_init,
      Translation2d.rotate_by, Translation2d.plus,
      Rotation2d.plus, Rotation2d.of_angle.
    cbn. rewrite sin_0, cos_0, sin_PI2, cos_PI2.
    pose proof PI_neq0.
    replace 1.0 with 1 by lra. replace 0.0 with 0 by lra.
    f_equal; f_equal; field; assumption. }
  split; [exact E|].
  rewrite E. unfold Pose2d_init. intros Heq.
  injection Heq as _ Hy.
  pose proof PI_RGT_0 as Hpi.
  assert (0 < 2 / PI) by (apply Rdiv_lt_0_compat; lra).
  lra.
Qed.

(** ** Round trip through [from_poses] *)

Lemma from_poses_plus (p : Pose2d) (t : Transform2d) :
  Rotation2d.normalized (rotation p) ->
  Transform2d_from_poses p (Pose2d_plus p t) = t.
Proof.
  destruct p as [[px py] [pc ps]], t as [[tx ty] [tc ts]].
  unfold Rotation2d.normalized. cbn. intros H.
  unfold Transform2d_from_poses, Pose2d_plus, Pose2d_init, Transform2d_init,
    Pose2d_get_translation, Pose2d_get_rotation, Translation2d.rotate_by,
    Translation2d.minus, Translation2d.plus,
    Rotation2d.minus, Rotation2d.plus, Rotation2d.unary_minus.
  cbn.
  f_equal; f_equal.
  - transitivity (tx * (pc * pc + ps * ps)); [ring | rewrite H; ring].
  - transitivity (ty * (pc * pc + ps * ps)); [ring | rewrite H; ring].
  - transitivity (tc * (pc * pc + ps * ps)); [ring | rewrite H; ring].
  - transitivity (ts * (pc * pc + ps * ps)); [ring | rewrite H; ring].
Qed.


Lemma of_angle_normalized (angle : R) : Rotation2d.normalized (Rotation2d.of_angle angle).
Proof.
  unfold Rotation2d.normalized, Rotation2d.of_angle. cbn.
  pose proof (sin2_cos2 angle) as H. unfold Rsqr in H. lra.
Qed.



Section Binary64Facts.

Import PrimFloat.


End Binary64Facts.

(** The same for a pose built by the constructor from any angle. *)
Lemma from_poses_plus_of_angle (x y angle : R) (t : Transform2d) :
  let p := Pose2d_init x y (Some (Rotation2d.of_angle angle)) in
  Transform2d_from_poses p (Pose2d_plus p t) = t.
Proof. intros p. apply from_poses_plus. apply of_angle_normalized. Qed.

Close Scope R_scope.

(** * Properties of the action scheduler *)

Section SchedulerFacts.

Context {W : Type}.
Variable actions : nat -> Action W.

(** ** Scheduling *)

Lemma schedule_action_adds (self : ActionScheduler) (a : nat) (e : env W) :
  scheduled_actions (fst (schedule_action actions self a e))
  = {[a]} ∪ scheduled_actions self /\
  calls (snd (schedule_action actions self a e)) = calls e ++ [Initialize a].
Proof. done. Qed.


(** ** One pass of [run] *)

Lemma run_body_spec (e : env W) (rem : list nat) (a : nat) :
  exists b w e',
    b = fst (is_finished (actions a) w) /\
    run_body actions (e, rem) a = (e', rem ++ (if b then [a] else [])) /\
    calls e' = calls e ++ tick_calls_of a b.
Proof.
  unfold run_body, do_is_finished, do_execute. cbn.
  destruct (is_finished (actions a) (execute (actions a) (world e))) as [b w] eqn:E.
  exists b, (execute (actions a) (world e)). rewrite E. cbn.
  destruct b; eexists; (split; [done|]); rewrite ?app_nil_r;
    (split; [reflexivity|]); cbn; rewrite <- ?app_assoc; done.
Qed.

Lemma calls_of_app (a : nat) (l1 l2 : list call) :
  calls_of a (l1 ++ l2) = calls_of a l1 ++ calls_of a l2.
Proof. apply List.filter_app. Qed.

Lemma calls_of_tick_same (a : nat) (b : bool) :
  calls_of a (tick_calls_of a b) = tick_calls_of a b.
Proof. destruct b; cbn; rewrite !Nat.eqb_refl; done. Qed.

Lemma calls_of_tick_other (a a' : nat) (b : bool) :
  a' <> a -> calls_of a (tick_calls_of a' b) = [].
Proof.
  intros Hne. apply Nat.eqb_neq in Hne.
  destruct b; cbn; rewrite !Hne; done.
Qed.

Lemma run_pass_fold (order : list nat) :
  NoDup order ->
  forall (e : env W) (rem : list nat),
  exists e' new fin,
    fold_left (run_body actions) order (e, rem) = (e', rem ++ fin) /\
    calls e' = calls e ++ new /\
    pass_outcome actions order new fin.
Proof.
  induction 1 as [|a order Hnotin Hnodup IH]; intros e rem.
  - exists e, [], []. cbn. rewrite !app_nil_r.
    split; [done|]. split; [done|].
    repeat split; try constructor; set_solver.
  - cbn [fold_left].
    destruct (run_body_spec e rem a) as (b & w & e1 & Hb & Hstep & Hcalls).
    rewrite Hstep.
    destruct (IH e1 (rem ++ (if b then [a] else [])))
      as (e' & new & fin & Hfold & Hc & Hout).
    destruct Hout as (Hnd & Hsub & Hout_absent & Hout_present).
    exists e', (tick_calls_of a b ++ new), ((if b then [a] else []) ++ fin).
    rewrite Hfold, Hc, Hcalls, <- !app_assoc.
    split; [done|]. split; [done|].
    assert (Ha_fin : a ∉ fin) by (intros Hin; apply Hnotin, Hsub, Hin).
    repeat split.
    + destruct b; cbn; [constructor|]; done.
    + intros a' Hin. destruct b; cbn in Hin; set_solver.
    + intros a' Hnot. rewrite calls_of_app.
      rewrite calls_of_tick_other by set_solver.
      rewrite Hout_absent by set_solver. done.
    + intros a' Hin. apply elem_of_cons in Hin as [->|Hin].
      * exists b, w. split; [done|]. split.
        -- rewrite calls_of_app, calls_of_tick_same, Hout_absent by done.
           by rewrite app_nil_r.
        -- destruct b; cbn; split; try done; set_solver.
      * destruct (Hout_present a' Hin) as (b' & w' & Hb' & Hc' & Hfin').
        assert (a' <> a) by (intros ->; done).
        exists b', w'. split; [done|]. split.
        -- rewrite calls_of_app, calls_of_tick_other by done. done.
        -- destruct b; cbn; set_solver.
Qed.

(** The second loop never meets a missing member. *)
Lemma run_remove_ok (rem : list nat) :
  NoDup rem ->
  forall s : gset nat,
  (forall a, a ∈ rem -> a ∈ s) ->
  run_remove rem s = Ok (s ∖ list_to_set rem).
Proof.
  induction 1 as [|a rem Hnotin Hnodup IH]; intros s Hsub; cbn.
  - f_equal. set_solver.
  - unfold set_remove. destruct (decide (a ∈ s)) as [_|Hno].
    2:{ exfalso. apply Hno, Hsub. set_solver. }
    cbn. rewrite IH.
    + f_equal. set_solver.
    + intros a' Hin. apply elem_of_difference. split; [apply Hsub; set_solver|].
      set_solver.
Qed.

(** ** One tick *)

Lemma run_spec (self : ActionScheduler) (e : env W) :
  exists e' new fin,
    run_pass actions (elements (scheduled_actions self)) e = (e', fin) /\
    run actions self e
    = Ok ({| action := action self;
             scheduled_actions := scheduled_actions self ∖ list_to_set fin |}, e') /\
    calls e' = calls e ++ new /\
    pass_outcome actions (elements (scheduled_actions self)) new fin.
Proof.
  destruct (run_pass_fold (elements (scheduled_actions self))
              (NoDup_elements _) e [])
    as (e' & new & fin & Hfold & Hc & Hout).
  cbn in Hfold. exists e', new, fin.
  unfold run, run_pass. rewrite Hfold.
  split; [done|]. split; [|done].
  rewrite run_remove_ok; [done|apply Hout|].
  intros a Hin. apply elem_of_elements. by apply Hout.
Qed.

Lemma run_returns (self : ActionScheduler) (e : env W) :
  returns (run actions self e).
Proof.
  destruct (run_spec self e) as (e' & new & fin & _ & Hrun & _).
  rewrite Hrun. by eexists.
Qed.

(** ** Many ticks *)

Lemma run_ticks_absent (n : nat) :
  forall (self : ActionScheduler) (e : env W) (a : nat),
  a ∉ scheduled_actions self ->
  exists self' e',
    run_ticks actions n self e = Ok (self', e') /\
    calls_of a (calls e') = calls_of a (calls e) /\
    a ∉ scheduled_actions self'.
Proof.
  induction n as [|n IH]; intros self e a Hnot; cbn.
  - by exists self, e.
  - destruct (run_spec self e) as (e1 & new & fin & _ & Hrun & Hc & Hout).
    rewrite Hrun. cbn.
    destruct (IH {| action := action self;
                    scheduled_actions := scheduled_actions self ∖ list_to_set fin |}
                 e1 a) as (self' & e' & Hticks & Hcalls & Hgone).
    { cbn. set_solver. }
    exists self', e'. split; [done|]. split; [|done].
    rewrite Hcalls, Hc, calls_of_app.
    destruct Hout as (_ & _ & Habsent & _).
    rewrite Habsent, app_nil_r; [done|].
    by rewrite elem_of_elements.
Qed.

Lemma run_ticks_never_finished (n : nat) :
  forall (self : ActionScheduler) (e : env W) (a : nat),
  a ∈ scheduled_actions self ->
  (forall w, fst (is_finished (actions a) w) = false) ->
  exists self' e',
    run_ticks actions n self e = Ok (self', e') /\
    a ∈ scheduled_actions self' /\
    calls_of a (calls e')
    = calls_of a (calls e) ++ concat (replicate n [Execute a; IsFinished a false]).
Proof.
  induction n as [|n IH]; intros self e a Hin Hnever; cbn.
  - exists self, e. by rewrite app_nil_r.
  - destruct (run_spec self e) as (e1 & new & fin & _ & Hrun & Hc & Hout).
    rewrite Hrun. cbn.
    destruct Hout as (_ & _ & _ & Hpresent).
    destruct (Hpresent a) as (b & w & Hb & Hcalls_a & Hfin).
    { by rewrite elem_of_elements. }
    rewrite Hnever in Hb. subst b.
    assert (Hnotfin : a ∉ fin) by (intros Hf; apply Hfin in Hf; done).
    destruct (IH {| action := action self;
                    scheduled_actions := scheduled_actions self ∖ list_to_set fin |}
                 e1 a) as (self' & e' & Hticks & Hstill & Hcalls).
    { cbn. set_solver. }
    { done. }
    exists self', e'. split; [done|]. split; [done|].
    rewrite Hcalls, Hc, calls_of_app, Hcalls_a, <- app_assoc. done.
Qed.

End SchedulerFacts.



(** ** The singleton *)

Section SingletonFacts.

Context {W : Type}.
Variable actions : nat -> Action W.

Lemma ActionScheduler_call_fresh (st : interp W) :
  _instance st = None ->
  ActionScheduler_call st
  = (length (objects st),
     mkInterp (Some (length (objects st)))
              (objects st ++ [Some ActionScheduler_init]) (outside st)).
Proof.
  intros H. unfold ActionScheduler_call, ActionScheduler_new. rewrite H.
  unfold ActionScheduler_init_at. cbn. do 2 f_equal.
  rewrite insert_app_r_alt, Nat.sub_diag by lia. done.
Qed.

Lemma ActionScheduler_call_again (st : interp W) (l : nat) :
  _instance st = Some l ->
  ActionScheduler_call st
  = (l, mkInterp (Some l) (<[l := Some ActionScheduler_init]> (objects st)) (outside st)).
Proof.
  intros H. unfold ActionScheduler_call, ActionScheduler_new. rewrite H.
  unfold ActionScheduler_init_at. by rewrite H.
Qed.

Lemma holds_instance_fields (st : interp W) (l : nat) :
  holds_instance st l -> exists f, fields_at st l = Ok f.
Proof. intros [_ [f Hf]]. exists f. unfold fields_at. by rewrite Hf. Qed.

Lemma holds_instance_insert (st : interp W) (l : nat) (f : ActionScheduler) (e : env W) :
  holds_instance st l ->
  holds_instance (mkInterp (_instance st) (<[l := Some f]> (objects st)) e) l.
Proof.
  intros [Hi [f0 Hf0]]. split; [done|]. exists f. cbn.
  apply list_lookup_insert_eq. by eapply lookup_lt_Some.
Qed.

Lemma holds_instance_well_formed (st : interp W) (l : nat) :
  holds_instance st l -> well_formed st.
Proof.
  intros [Hi [f Hf]] l' Hl'. rewrite Hi in Hl'. injection Hl' as <-.
  by eapply lookup_lt_Some.
Qed.

Lemma ActionScheduler_call_holds (st : interp W) :
  well_formed st ->
  holds_instance (snd (ActionScheduler_call st)) (fst (ActionScheduler_call st)) /\
  fields_at (snd (ActionScheduler_call st)) (fst (ActionScheduler_call st))
  = Ok ActionScheduler_init /\
  outside (snd (ActionScheduler_call st)) = outside st.
Proof.
  intros Hwf. destruct (_instance st) as [l|] eqn:E.
  - rewrite (ActionScheduler_call_again st l E). cbn.
    assert (Hl : <[l := Some ActionScheduler_init]> (objects st) !! l
                 = Some (Some ActionScheduler_init)).
    { apply list_lookup_insert_eq. by apply Hwf. }
    unfold holds_instance, fields_at. cbn. rewrite Hl. eauto.
  - rewrite (ActionScheduler_call_fresh st E). cbn.
    assert (Hl : (objects st ++ [Some ActionScheduler_init]) !! length (objects st)
                 = Some (Some ActionScheduler_init)).
    { rewrite lookup_app_r, Nat.sub_diag by lia. done. }
    unfold holds_instance, fields_at. cbn. rewrite Hl. eauto.
Qed.

Lemma exec_op_holds (l : nat) (o : op) (st : interp W) :
  holds_instance st l ->
  exists st', exec_op actions l o st = Ok st' /\ holds_instance st' l.
Proof.
  intros H. destruct (holds_instance_fields st l H) as [f Hf].
  destruct o as [a|]; cbn.
  - unfold obj_schedule_action. rewrite Hf. cbn.
    eexists. split; [reflexivity|]. by apply holds_instance_insert.
  - unfold obj_run. rewrite Hf. cbn.
    destruct (run_returns actions f (outside st)) as (r & Hr).
    rewrite Hr. cbn. eexists. split; [reflexivity|]. by apply holds_instance_insert.
Qed.

Lemma exec_holds (l : nat) (prog : list op) :
  forall st : interp W,
  holds_instance st l ->
  exists st', exec actions l prog st = Ok st' /\ holds_instance st' l.
Proof.
  induction prog as [|o prog IH]; intros st H; cbn.
  - by exists st.
  - destruct (exec_op_holds l o st H) as (st1 & E1 & H1). rewrite E1. cbn.
    by apply IH.
Qed.

End SingletonFacts.

(** C10.  An evaluation of [ActionScheduler()] leaves the class holding an
    initialised instance.  After any program of [schedule_action] and
    [run] calls on that instance, evaluating [ActionScheduler()] again
    returns the same object, with [action] reset to [None] and
    [scheduled_actions] reset to the empty set, whatever the set held, and
    makes no call on any action: the record of calls and the actions' world
    are as they were, so no [end()] is called. *)
Theorem constructor_returns_singleton_and_resets {W : Type} (actions : nat -> Action W)
    (st : interp W) (prog : list op) :
  well_formed st ->
  let l := fst (ActionScheduler_call st) in
  holds_instance (snd (ActionScheduler_call st)) l /\
  exists st',
    exec actions l prog (snd (ActionScheduler_call st)) = Ok st' /\
    holds_instance st' l /\
    fst (ActionScheduler_call st') = l /\
    fields_at (snd (ActionScheduler_call st')) l
    = Ok {| action := None; scheduled_actions := ∅ |} /\
    outside (snd (ActionScheduler_call st')) = outside st' /\
    (forall a, count_calls is_end a (calls (outside (snd (ActionScheduler_call st'))))
               = count_calls is_end a (calls (outside st'))).
Proof.
  intros Hwf l.
  destruct (ActionScheduler_call_holds st Hwf) as (Hholds & _ & _).
  split; [exact Hholds|].
  destruct (exec_holds actions l prog _ Hholds) as (st' & Hexec & Hholds').
  exists st'. split; [exact Hexec|]. split; [exact Hholds'|].
  destruct (ActionScheduler_call_holds st' (holds_instance_well_formed st' l Hholds'))
    as (_ & Hfields & Hout).
  assert (Hsame : fst (ActionScheduler_call st') = l).
  { destruct Hholds' as [Hi _]. by rewrite (ActionScheduler_call_again st' l Hi). }
  rewrite Hsame in Hfields.
  split; [exact Hsame|]. split; [exact Hfields|]. split; [exact Hout|].
  intros a. by rewrite Hout.
Qed.

Lemma constructor_returns_singleton_and_resets_witness :
  let st := mkInterp None [] (mkEnv tt []) in
  let prog := [Schedule 0; Schedule 1; Run] in
  well_formed st /\
  exists st',
    exec demo_actions 0 prog (snd (ActionScheduler_call st)) = Ok st' /\
    (exists f, fields_at st' 0 = Ok f /\ 0 ∈ scheduled_actions f) /\
    fst (ActionScheduler_call st') = 0 /\
    fields_at (snd (ActionScheduler_call st')) 0
    = Ok {| action := None; scheduled_actions := ∅ |} /\
    count_calls is_end 0 (calls (outside (snd (ActionScheduler_call st')))) = 0.
Proof.
  intros st prog.
  assert (Hwf : well_formed st) by (intros l H; discriminate H).
  split; [exact Hwf|].
  destruct (constructor_returns_singleton_and_resets demo_actions st prog Hwf)
    as (_ & st' & Hexec & _ & Hsame & Hfields & _ & Hend).
  exists st'. split; [exact Hexec|].
  assert (Hst' : exec demo_actions 0 prog (snd (ActionScheduler_call st))
                 = Ok (mkInterp (Some 0)
                         [Some {| action := None; scheduled_actions := {[0]} |}]
                         (mkEnv tt [Initialize 0; Initialize 1; Execute 1;
                                    IsFinished 1 true; End 1 false; Execute 0;
                                    IsFinished 0 false]))).
  { vm_compute. reflexivity. }
  change (fst (ActionScheduler_call st)) with 0 in Hexec, Hsame, Hfields.
  rewrite Hst' in Hexec. injection Hexec as <-.
  split.
  - eexists. split; [reflexivity|]. cbn. by apply elem_of_singleton.
  - split; [exact Hsame|]. split; [exact Hfields|].
    rewrite (Hend 0). reflexivity.
Defined.

(** * Further properties of the pose algebra *)

Open Scope R_scope.

Ltac unfold_pose :=
  unfold Transform2d_from_poses, Transform2d_inverse, Transform2d_from_coordinates,
    Pose2d_plus, Pose2d_default, Pose2d_init, Transform2d_init,
    Pose2d_get_translation, Pose2d_get_rotation,
    Transform2d_get_translation, Transform2d_get_rotation,
    Translation2d.rotate_by, Translation2d.minus, Translation2d.plus,
    Translation2d.unary_minus, Translation2d.zero,
    Rotation2d.minus, Rotation2d.plus, Rotation2d.unary_minus,
    Rotation2d.zero, Rotation2d.of_angle, Rotation2d.normalized in *;
  cbn [translation rotation m_translation m_rotation
       Translation2d.x Translation2d.y Rotation2d.m_cos Rotation2d.m_sin] in *.

(** Closes [lhs = v] where [lhs] is [v] times the squared norm [c*c + s*s]. *)
Ltac by_unit_norm H :=
  match goal with
  | H : ?c * ?c + ?s * ?s = 1 |- _ = ?v =>
      transitivity (v * (c * c + s * s)); [ring | rewrite H; ring]
  end.

(** X1.  Adding the identity transform [Transform2d()] to a pose gives the
    pose back. *)
Theorem plus_identity_transform (p : Pose2d) :
  Pose2d_plus p (Transform2d_init None) = p.
Proof.
  destruct p as [[px py] [pc ps]]. unfold_pose. rewrite cos_0, sin_0.
  f_equal; f_equal; ring.
Qed.

(** X4.  Inverting a transform twice gives it back, when its rotation is
    normalized. *)
Theorem inverse_involutive (t : Transform2d) :
  Rotation2d.normalized (m_rotation t) ->
  Transform2d_inverse (Transform2d_inverse t) = t.
Proof.
  destruct t as [[tx ty] [tc ts]]. unfold_pose. intros H.
  f_equal; f_equal.
  - by_unit_norm H.
  - by_unit_norm H.
  - ring.
Qed.

(** X5.  The transform from a pose to itself is the identity transform, when
    the rotation of the pose is normalized. *)
Theorem from_poses_same_pose (p : Pose2d) :
  Rotation2d.normalized (rotation p) ->
  Transform2d_from_poses p p = Transform2d_init None.
Proof.
  destruct p as [[px py] [pc ps]]. unfold_pose. intros H.
  rewrite cos_0, sin_0. f_equal; f_equal; try ring.
  rewrite <- H. ring.
Qed.

(** X7.  [Pose2d(x, y, r)] is the default pose plus
    [Transform2d.from_coordinates(x, y, r)], and [from_poses] from the
    default pose to it gives that transform back. *)
Theorem pose_is_origin_plus_coordinates (x y : R) (r : Rotation2d.t) :
  Pose2d_plus Pose2d_default (Transform2d_from_coordinates x y r)
  = Pose2d_init x y (Some r) /\
  Transform2d_from_poses Pose2d_default (Pose2d_init x y (Some r))
  = Transform2d_from_coordinates x y r.
Proof.
  destruct r as [rc rs]. unfold_pose. rewrite cos_0, sin_0.
  split; f_equal; f_equal; ring.
Qed.

(** X10.  A twist with [dtheta = 0] moves the pose along a straight line:
    [exp] is [plus] of the translation (dx, dy), and the heading is kept. *)
Theorem exp_without_rotation_is_straight (p : Pose2d) (vx vy : R) :
  Pose2d_exp p (mkTwist2d vx vy 0)
  = Pose2d_plus p (Transform2d_from_coordinates vx vy (Rotation2d.of_angle 0)) /\
  rotation (Pose2d_exp p (mkTwist2d vx vy 0)) = rotation p.
Proof.
  assert (E : Pose2d_exp p (mkTwist2d vx vy 0)
              = Pose2d_plus p (Transform2d_from_coordinates vx vy (Rotation2d.of_angle 0))).
  { unfold Pose2d_exp. cbn [dx dy dtheta].
    destruct (Rlt_dec (Rabs 0) 1E-9) as [_|H].
    2:{ exfalso. apply H. rewrite Rabs_R0. lra. }
    rewrite sin_0, cos_0, atan2_0_1.
    unfold Transform2d_from_coordinates, Transform2d_init.
    replace 1.0 with 1 by lra. replace 6.0 with 6 by lra.
    replace 0.5 with (/ 2) by lra.
    do 2 f_equal. f_equal; field. }
  split; [exact E|]. rewrite E.
  destruct p as [[px py] [pc ps]]. unfold_pose. rewrite cos_0, sin_0.
  f_equal; ring.
Qed.


Close Scope R_scope.

(** * Further properties of the scheduler *)

Section SchedulerMore.

Context {W : Type}.
Variable actions : nat -> Action W.

Lemma tick_call_mono (s s' : gset nat) (c : call) :
  s ⊆ s' -> tick_call s c -> tick_call s' c.
Proof. intros Hsub. destruct c; cbn; set_solver. Qed.

Lemma run_pass_calls (order : list nat) :
  forall (e : env W) (rem : list nat) (s : gset nat),
  (forall a, a ∈ order -> a ∈ s) ->
  exists e' new fin,
    fold_left (run_body actions) order (e, rem) = (e', rem ++ fin) /\
    calls e' = calls e ++ new /\
    Forall (tick_call s) new /\
    length (List.filter is_execute new) = length order /\
    length (List.filter is_query new) = length order /\
    length (List.filter is_end new) = length fin /\
    length new = 2 * length order + length fin.
Proof.
  induction order as [|a order IH]; intros e rem s Hs.
  - exists e, [], []. cbn. by rewrite !app_nil_r.
  - cbn [fold_left].
    destruct (run_body_spec actions e rem a) as (b & w & e1 & _ & Hstep & Hcalls).
    rewrite Hstep.
    destruct (IH e1 (rem ++ (if b then [a] else [])) s)
      as (e' & new & fin & Hfold & Hc & Hall & Hex & Hq & Hend & Hlen).
    { intros a' Ha'. apply Hs. set_solver. }
    exists e', (tick_calls_of a b ++ new), ((if b then [a] else []) ++ fin).
    rewrite Hfold, Hc, Hcalls, <- !app_assoc. split; [done|]. split; [done|].
    assert (Ha : a ∈ s) by (apply Hs; set_solver).
    split.
    { apply Forall_app. split; [|done]. destruct b; repeat constructor; done. }
    rewrite !List.filter_app, !length_app, Hex, Hq, Hend, Hlen.
    destruct b; cbn; repeat split; lia.
Qed.

Lemma run_counts (self : ActionScheduler) (e : env W) :
  exists self' e' new fin,
    run actions self e = Ok (self', e') /\
    scheduled_actions self' = scheduled_actions self ∖ list_to_set fin /\
    action self' = action self /\
    NoDup fin /\ (forall a, a ∈ fin -> a ∈ scheduled_actions self) /\
    calls e' = calls e ++ new /\
    Forall (tick_call (scheduled_actions self)) new /\
    length (List.filter is_execute new) = size (scheduled_actions self) /\
    length (List.filter is_query new) = size (scheduled_actions self) /\
    length (List.filter is_end new) = length fin /\
    length new = 2 * size (scheduled_actions self) + length fin.
Proof.
  destruct (run_spec actions self e) as (e0 & new0 & fin0 & Hpass & Hrun & _ & Hout).
  destruct (run_pass_calls (elements (scheduled_actions self)) e [] (scheduled_actions self))
    as (e' & new & fin & Hfold & Hc & Hall & Hex & Hq & Hend & Hlen).
  { intros a. by rewrite elem_of_elements. }
  unfold run_pass in Hpass. rewrite Hfold in Hpass. cbn in Hpass.
  injection Hpass as <- <-.
  destruct Hout as (Hnd & Hsub & _ & _).
  eexists _, e', new, fin. split; [exact Hrun|]. cbn.
  repeat split; try done.
  intros a Ha. apply elem_of_elements. by apply Hsub.
Qed.

Lemma plain_run_counts_calls (self : ActionScheduler) (e : env W) :
  exists self' e' new,
    run actions self e = Ok (self', e') /\
    calls e' = calls e ++ new /\
    length (List.filter is_execute new) = size (scheduled_actions self) /\
    length (List.filter is_query new) = size (scheduled_actions self) /\
    length (List.filter is_end new)
    = size (scheduled_actions self) - size (scheduled_actions self') /\
    length new
    = 2 * size (scheduled_actions self)
      + (size (scheduled_actions self) - size (scheduled_actions self')).
Proof.
  destruct (run_counts self e)
    as (self' & e' & new & fin & Hrun & Hset & _ & Hnd & Hsub & Hc & _ & Hex & Hq & Hend & Hlen).
  exists self', e', new. split; [exact Hrun|]. split; [exact Hc|].
  assert (Hsize : size (scheduled_actions self) - size (scheduled_actions self')
                  = length fin).
  { rewrite Hset, size_difference by set_solver.
    rewrite size_list_to_set by exact Hnd.
    assert (length fin <= size (scheduled_actions self)).
    { rewrite <- (size_list_to_set (C := gset nat) fin) by exact Hnd.
      apply subseteq_size. set_solver. }
    lia. }
  rewrite Hsize. done.
Qed.

Lemma plain_ticks_only_run_active_actions (n : nat) :
  forall (self : ActionScheduler) (e : env W),
  exists self' e' new,
    run_ticks actions n self e = Ok (self', e') /\
    scheduled_actions self' ⊆ scheduled_actions self /\
    action self' = action self /\
    calls e' = calls e ++ new /\
    Forall (tick_call (scheduled_actions self)) new.
Proof.
  induction n as [|n IH]; intros self e; cbn.
  - exists self, e, []. by rewrite app_nil_r.
  - destruct (run_counts self e)
      as (self1 & e1 & new1 & fin & Hrun & Hset & Hact & _ & _ & Hc1 & Hall1 & _).
    rewrite Hrun. cbn.
    destruct (IH self1 e1) as (self' & e' & new & Hticks & Hsub & Hact' & Hc & Hall).
    assert (Hsub1 : scheduled_actions self1 ⊆ scheduled_actions self)
      by (rewrite Hset; set_solver).
    exists self', e', (new1 ++ new). split; [exact Hticks|].
    split; [set_solver|]. split; [congruence|].
    split; [by rewrite Hc, Hc1, app_assoc|].
    apply Forall_app. split; [exact Hall1|].
    eapply Forall_impl; [exact Hall|]. intros c. by apply tick_call_mono.
Qed.

(** X20.  With no active action, any number of ticks change nothing and call
    nothing. *)
Theorem run_ticks_empty_scheduler (n : nat) (current : option nat) (e : env W) :
  run_ticks actions n {| action := current; scheduled_actions := ∅ |} e
  = Ok ({| action := current; scheduled_actions := ∅ |}, e).
Proof.
  induction n as [|n IH]; cbn; [done|].
  unfold run, run_pass. cbn. rewrite elements_empty. cbn.
  replace (∅ : gset nat) with (scheduled_actions {| action := current; scheduled_actions := ∅ |}) at 1 by done.
  exact IH.
Qed.

Lemma run_pass_pure_conditions (cond : nat -> W -> bool * W) (order : list nat) :
  (forall a, a ∈ order -> actions a = WaitUntilAction (cond a)) ->
  (forall a w, a ∈ order -> snd (cond a w) = w) ->
  forall (e : env W) (rem : list nat),
  world (fst (fold_left (run_body actions) order (e, rem))) = world e.
Proof.
  induction order as [|a order IH]; intros Hwait Hpure e rem; [done|].
  cbn [fold_left].
  assert (Ha : a ∈ a :: order) by set_solver.
  unfold run_body at 2, do_is_finished, do_execute, do_end.
  rewrite (Hwait a Ha). cbn.
  pose proof (Hpure a (world e) Ha) as Hw.
  destruct (cond a (world e)) as [b w]. cbn in Hw. subst w.
  destruct b; rewrite IH; try done; intros; (apply Hwait || apply Hpure); set_solver.
Qed.

(** X21.  When every active action is a [WaitUntilAction] whose condition
    does not change the world, any number of ticks leave the world as it
    is. *)
Theorem waiting_actions_leave_world_unchanged (cond : nat -> W -> bool * W) (n : nat) :
  forall (self : ActionScheduler) (e : env W),
  (forall a, a ∈ scheduled_actions self -> actions a = WaitUntilAction (cond a)) ->
  (forall a w, a ∈ scheduled_actions self -> snd (cond a w) = w) ->
  exists self' e',
    run_ticks actions n self e = Ok (self', e') /\ world e' = world e.
Proof.
  induction n as [|n IH]; intros self e Hwait Hpure; cbn.
  - by exists self, e.
  - destruct (run_spec actions self e) as (e1 & new & fin & Hpass & Hrun & _ & Hout).
    rewrite Hrun. cbn.
    assert (Hw1 : world e1 = world e).
    { pose proof (run_pass_pure_conditions cond (elements (scheduled_actions self))) as H.
      unfold run_pass in Hpass. specialize (H ltac:(intros a Ha; apply Hwait; by apply elem_of_elements)
        ltac:(intros a w Ha; apply Hpure; by apply elem_of_elements) e []).
      by rewrite Hpass in H. }
    destruct (IH {| action := action self;
                    scheduled_actions := scheduled_actions self ∖ list_to_set fin |} e1)
      as (self' & e' & Hticks & Hw).
    { intros a Ha. apply Hwait. cbn in Ha. set_solver. }
    { intros a w Ha. apply Hpure. cbn in Ha. set_solver. }
    exists self', e'. split; [exact Hticks|]. congruence.
Qed.

Lemma exec_keeps_store_size (l : nat) (prog : list op) :
  forall st st' : interp W,
  exec actions l prog st = Ok st' ->
  length (objects st') = length (objects st) /\ _instance st' = _instance st.
Proof.
  induction prog as [|o prog IH]; intros st st' H; cbn in H.
  - by injection H as <-.
  - destruct (exec_op actions l o st) as [st1|err] eqn:E; [|discriminate].
    cbn in H. destruct (IH st1 st' H) as [Hlen Hinst].
    rewrite Hlen, Hinst. clear IH H Hlen Hinst.
    destruct o as [a|]; cbn in E.
    + unfold obj_schedule_action in E.
      destruct (fields_at st l) as [f|]; [|discriminate]. cbn in E.
      injection E as <-. cbn. by rewrite length_insert.
    + unfold obj_run in E.
      destruct (fields_at st l) as [f|]; [|discriminate]. cbn in E.
      destruct (run actions f (outside st)) as [r|]; [|discriminate]. cbn in E.
      injection E as <-. cbn. by rewrite length_insert.
Qed.

Lemma sessions_from_instance (progs : list (list op)) :
  forall (st : interp W) (l : nat),
  holds_instance st l ->
  exists st', sessions actions progs st = Ok st' /\
              holds_instance st' l /\ length (objects st') = length (objects st).
Proof.
  induction progs as [|prog rest IH]; intros st l H; cbn.
  - by exists st.
  - pose proof (ActionScheduler_call_again st l (proj1 H)) as Hcall.
    destruct (ActionScheduler_call_holds st (holds_instance_well_formed st l H))
      as (Hholds & _ & _).
    rewrite Hcall in Hholds |- *. cbn in Hholds.
    destruct (exec_holds actions l prog _ Hholds) as (st1 & Hexec & Hholds1).
    rewrite Hexec. cbn.
    destruct (IH st1 l Hholds1) as (st' & Hs & Hholds' & Hlen).
    exists st'. split; [exact Hs|]. split; [exact Hholds'|].
    rewrite Hlen. destruct (exec_keeps_store_size l prog _ _ Hexec) as [-> _].
    cbn. by rewrite length_insert.
Qed.

(** X22.  However often [ActionScheduler()] is evaluated and whatever is
    scheduled and run in between, the store holds one scheduler object, and
    the class names it. *)
Theorem one_scheduler_object_ever (e : env W) (prog : list op) (rest : list (list op)) :
  exists st',
    sessions actions (prog :: rest) (mkInterp None [] e) = Ok st' /\
    _instance st' = Some 0 /\
    length (objects st') = 1.
Proof.
  cbn [sessions].
  rewrite (ActionScheduler_call_fresh (mkInterp None [] e)) by done. cbn.
  set (st0 := mkInterp (Some 0) [Some ActionScheduler_init] e).
  assert (H0 : holds_instance st0 0) by (split; [done|by eexists]).
  destruct (exec_holds actions 0 prog st0 H0) as (st1 & Hexec & H1).
  rewrite Hexec. cbn.
  destruct (sessions_from_instance rest st1 0 H1) as (st' & Hs & Hholds & Hlen).
  exists st'. split; [exact Hs|]. split; [apply Hholds|].
  rewrite Hlen. by destruct (exec_keeps_store_size 0 prog _ _ Hexec) as [-> _].
Qed.

End SchedulerMore.

(** * The further properties at concrete inputs *)

Open Scope R_scope.

Lemma quarter_turn_normalized : Rotation2d.normalized (Rotation2d.mk 0 1).
Proof. unfold Rotation2d.normalized. simpl. lra. Defined.

Lemma inverse_involutive_witness :
  let t := {| m_translation := Translation2d.mk 1 2; m_rotation := Rotation2d.mk 0 1 |} in
  Rotation2d.normalized (m_rotation t) /\
  Transform2d_inverse (Transform2d_inverse t) = t.
Proof.
  intros t. split; [exact quarter_turn_normalized|].
  exact (inverse_involutive t quarter_turn_normalized).
Defined.

Lemma from_poses_same_pose_witness :
  let p := {| translation := Translation2d.mk 3 4; rotation := Rotation2d.mk 0 1 |} in
  Rotation2d.normalized (rotation p) /\
  Transform2d_from_poses p p = Transform2d_init None.
Proof.
  intros p. split; [exact quarter_turn_normalized|].
  exact (from_poses_same_pose p quarter_turn_normalized).
Defined.

Close Scope R_scope.

Lemma waiting_actions_leave_world_unchanged_witness :
  let cond := fun (a : nat) (w : unit) => (negb (Nat.eqb a 0), w) in
  let self := {| action := None; scheduled_actions := {[0; 1]} |} in
  (forall a, a ∈ scheduled_actions self -> demo_actions a = WaitUntilAction (cond a)) /\
  (forall a w, a ∈ scheduled_actions self -> snd (cond a w) = w) /\
  exists self' e',
    run_ticks demo_actions 2 self (mkEnv tt []) = Ok (self', e') /\ world e' = tt.
Proof.
  intros cond self.
  assert (H1 : forall a, a ∈ scheduled_actions self ->
                         demo_actions a = WaitUntilAction (cond a))
    by (intros a _; reflexivity).
  assert (H2 : forall a w, a ∈ scheduled_actions self -> snd (cond a w) = w)
    by (intros a w _; reflexivity).
  split; [exact H1|]. split; [exact H2|].
  exact (waiting_actions_leave_world_unchanged demo_actions cond 2 self (mkEnv tt []) H1 H2).
Defined.

(** * Properties of ticks with actions that may reach the scheduler *)

Section ReentrantFacts.
Context {W : Type}.
Variable actions : nat -> ReentrantAction W.

Lemma perform_returns (fuel : nat) (A : Type) (w : W) (a : A) (ps : sets) (log : list call) :
  perform actions fuel A (Returns w a) ps log = (Finished w a, ps, log).
Proof. destruct fuel; reflexivity. Qed.

Lemma reentrant_body_plain (fuel a : nat) (st : pass_state) (s : gset nat) :
  well_behaved actions s -> a ∈ s ->
  reentrant_body actions fuel a st
  = (None,
     mkPass (fst (spec_turn (as_plain actions a) (p_world st)))
            (p_sets st)
            (p_log st ++ tick_calls_of a (snd (spec_turn (as_plain actions a) (p_world st))))
            (p_remove st ++ (if snd (spec_turn (as_plain actions a) (p_world st))
                             then [a] else []))).
Proof.
  intros Hwb Ha. unfold reentrant_body, spec_turn, as_plain. cbn.
  destruct (Hwb a Ha (p_world st)) as (_ & (w1 & [] & E1) & _).
  rewrite E1, perform_returns. cbn.
  destruct (Hwb a Ha w1) as (_ & _ & (w2 & b & E2) & _).
  rewrite E2, perform_returns. cbn.
  destruct b.
  - destruct (Hwb a Ha w2) as (_ & _ & _ & Hend).
    destruct (Hend false) as (w3 & [] & E3).
    rewrite E3, perform_returns. cbn. by rewrite <- !app_assoc.
  - cbn. by rewrite <- !app_assoc, app_nil_r.
Qed.

Lemma reentrant_pass_plain (fuel size0 : nat) (s : gset nat) (order : list nat) :
  well_behaved actions s ->
  (forall a, a ∈ order -> a ∈ s) ->
  forall st : pass_state,
  size (iter (p_sets st)) = size0 ->
  reentrant_pass actions fuel size0 order st
  = (None,
     mkPass (spec_pass (as_plain actions) order (p_world st)).1.1
            (p_sets st)
            (p_log st ++ (spec_pass (as_plain actions) order (p_world st)).1.2)
            (p_remove st ++ (spec_pass (as_plain actions) order (p_world st)).2)).
Proof.
  intros Hwb. induction order as [|a order IH]; intros Hsub st Hsize.
  - cbn. rewrite Hsize, Nat.eqb_refl. cbn. rewrite !app_nil_r. by destruct st.
  - cbn [reentrant_pass]. rewrite Hsize, Nat.eqb_refl. cbn [negb].
    rewrite (reentrant_body_plain fuel a st s Hwb) by (apply Hsub; set_solver).
    rewrite IH; [|intros a' Ha'; apply Hsub; set_solver|done].
    cbn [p_world p_sets p_log p_remove spec_pass].
    destruct (spec_turn (as_plain actions a) (p_world st)) as [w1 b] eqn:Et. cbn [fst snd].
    destruct (spec_pass (as_plain actions) order w1) as [[w' cs] marked] eqn:Ep.
    cbn [fst snd]. unfold tick_calls_of. f_equal. f_equal.
    + rewrite <- !app_assoc. cbn. done.
    + by rewrite <- app_assoc.
Qed.

Lemma run_pass_is_spec_pass (plainly : nat -> Action W) (order : list nat) :
  forall (e : env W) (rem : list nat),
  fold_left (run_body plainly) order (e, rem)
  = (mkEnv (spec_pass plainly order (world e)).1.1
           (calls e ++ (spec_pass plainly order (world e)).1.2),
     rem ++ (spec_pass plainly order (world e)).2).
Proof.
  induction order as [|a order IH]; intros e rem.
  - cbn. rewrite !app_nil_r. by destruct e.
  - cbn [fold_left spec_pass].
    unfold run_body at 2, do_is_finished, do_execute, do_end, spec_turn. cbn.
    destruct (is_finished (plainly a) (execute (plainly a) (world e))) as [b w2] eqn:E.
    destruct b; rewrite IH; cbn;
      destruct (spec_pass plainly order _) as [[w' cs] marked]; cbn;
      rewrite <- !app_assoc; cbn; done.
Qed.

Lemma reentrant_remove_ok (rem : list nat) :
  NoDup rem ->
  forall s : gset nat,
  (forall a, a ∈ rem -> a ∈ s) ->
  reentrant_remove rem s = (None, s ∖ list_to_set rem).
Proof.
  induction 1 as [|a rem Hnotin Hnodup IH]; intros s Hsub; cbn.
  - f_equal. set_solver.
  - destruct (decide (a ∈ s)) as [_|Hno].
    2:{ exfalso. apply Hno, Hsub. set_solver. }
    rewrite IH.
    + f_equal. set_solver.
    + intros a' Hin. apply elem_of_difference. split; [apply Hsub; set_solver|].
      set_solver.
Qed.

Lemma well_behaved_subset (s s' : gset nat) :
  s' ⊆ s -> well_behaved actions s -> well_behaved actions s'.
Proof. intros Hsub Hwb a Ha. apply Hwb. set_solver. Qed.

(** What a tick of well-behaved actions amounts to. *)
Lemma tick_of_plain_actions (self : ActionScheduler) (e : env W) :
  let plainly := as_plain actions in
  let pass := spec_pass plainly (elements (scheduled_actions self)) (world e) in
  let self' := {| action := action self;
                  scheduled_actions := scheduled_actions self ∖ list_to_set pass.2 |} in
  let e' := mkEnv pass.1.1 (calls e ++ pass.1.2) in
  run plainly self e = Ok (self', e') /\
  pass_outcome plainly (elements (scheduled_actions self)) pass.1.2 pass.2 /\
  (forall fuel, well_behaved actions (scheduled_actions self) ->
                reentrant_run actions fuel self e = (None, self', e')).
Proof.
  intros plainly pass self' e'.
  destruct (run_spec plainly self e) as (e0 & new & fin & Hpass & Hrun & Hc & Hout).
  unfold run_pass in Hpass. rewrite run_pass_is_spec_pass in Hpass.
  fold pass in Hpass. cbn in Hpass. injection Hpass as <- <-.
  cbn in Hc. apply app_inv_head in Hc. subst new.
  split; [exact Hrun|]. split; [exact Hout|].
  intros fuel Hwb. unfold reentrant_run.
  rewrite (reentrant_pass_plain fuel _ (scheduled_actions self)); try done.
  2:{ intros a. by rewrite elem_of_elements. }
  cbn [p_world p_sets p_log p_remove bound attached]. fold plainly. fold pass.
  destruct Hout as (Hnd & Hsub & _).
  rewrite reentrant_remove_ok; [done|exact Hnd|].
  intros a Ha. apply elem_of_elements. by apply Hsub.
Qed.

Lemma ticks_of_plain_actions (fuel n : nat) :
  forall (self : ActionScheduler) (e : env W),
  well_behaved actions (scheduled_actions self) ->
  exists self' e',
    run_ticks (as_plain actions) n self e = Ok (self', e') /\
    reentrant_ticks actions fuel n self e = (None, self', e').
Proof.
  induction n as [|n IH]; intros self e Hwb; cbn.
  - by exists self, e.
  - destruct (tick_of_plain_actions self e) as (Hrun & _ & Hre).
    rewrite Hrun, (Hre fuel Hwb). cbn.
    apply IH. cbn. eapply well_behaved_subset; [|exact Hwb]. set_solver.
Qed.

End ReentrantFacts.

(** C6, as the code has it.  For actions whose lifecycle methods return
    without raising and without calling the scheduler, one tick of [run]
    returns and does what section 4.6 describes: in the order the set
    yields them, every active action has [execute()] called, then
    [is_finished()], then [end(False)] exactly when the answer was true;
    the world and the calls are those of that pass, and the set afterwards
    is the set before minus the actions that answered true, removed after
    the pass.  No other action is called.  An action that is not active
    after a tick gets no further call in any number of later ticks.  An
    active action whose [is_finished()] is always false is still active
    after any number of ticks, executed once per tick, and never ended. *)
Theorem reentrant_run_lifecycle {W : Type} (actions : nat -> ReentrantAction W)
    (fuel : nat) (self : ActionScheduler) (e : env W) :
  well_behaved actions (scheduled_actions self) ->
  let plainly := as_plain actions in
  let pass := spec_pass plainly (elements (scheduled_actions self)) (world e) in
  let new := snd (fst pass) in
  let self' := {| action := action self;
                  scheduled_actions := scheduled_actions self ∖ list_to_set (snd pass) |} in
  let e' := mkEnv (fst (fst pass)) (calls e ++ new) in
  reentrant_run actions fuel self e = (None, self', e') /\
  (forall a, a ∈ scheduled_actions self ->
     exists (finished : bool) (w : W),
       finished = fst (is_finished (plainly a) w) /\
       calls_of a new
       = Execute a :: IsFinished a finished :: (if finished then [End a false] else []) /\
       (a ∈ scheduled_actions self' <-> finished = false)) /\
  (forall a, a ∉ scheduled_actions self ->
     calls_of a new = [] /\ a ∉ scheduled_actions self') /\
  (forall a n, a ∉ scheduled_actions self' ->
     exists self'' e'',
       reentrant_ticks actions fuel n self' e' = (None, self'', e'') /\
       calls_of a (calls e'') = calls_of a (calls e') /\
       a ∉ scheduled_actions self'') /\
  (forall a n, a ∈ scheduled_actions self ->
     (forall w, fst (is_finished (plainly a) w) = false) ->
     exists self'' e'',
       reentrant_ticks actions fuel n self e = (None, self'', e'') /\
       a ∈ scheduled_actions self'' /\
       count_calls is_execute a (calls e'') = n + count_calls is_execute a (calls e) /\
       count_calls is_end a (calls e'') = count_calls is_end a (calls e)).
Proof.
  intros Hwb plainly pass new self' e'.
  destruct (tick_of_plain_actions actions self e) as (Hrun & Hout & Hre).
  fold plainly in Hrun, Hout. fold pass in Hrun, Hout.
  split; [exact (Hre fuel Hwb)|].
  destruct Hout as (Hnd & Hsub & Habsent & Hpresent).
  split; [|split; [|split]].
  - intros a Hin.
    destruct (Hpresent a) as (b & w & Hb & Hcalls & Hfin).
    { by rewrite elem_of_elements. }
    exists b, w. split; [exact Hb|]. split; [exact Hcalls|]. cbn.
    rewrite elem_of_difference, elem_of_list_to_set, Hfin.
    destruct b; naive_solver.
  - intros a Hnot. split.
    + apply Habsent. by rewrite elem_of_elements.
    + cbn. set_solver.
  - intros a n Hnot.
    assert (Hwb' : well_behaved actions (scheduled_actions self')).
    { eapply well_behaved_subset; [|exact Hwb]. cbn. set_solver. }
    destruct (ticks_of_plain_actions actions fuel n self' e' Hwb')
      as (self'' & e'' & Hplain & Hticks).
    destruct (run_ticks_absent plainly n self' e' a Hnot)
      as (s2 & e2 & Hplain2 & Hcalls & Hgone).
    unfold plainly in Hplain2. rewrite Hplain in Hplain2. injection Hplain2 as <- <-.
    by exists self'', e''.
  - intros a n Hin Hnever.
    destruct (ticks_of_plain_actions actions fuel n self e Hwb)
      as (self'' & e'' & Hplain & Hticks).
    destruct (run_ticks_never_finished plainly n self e a Hin Hnever)
      as (s2 & e2 & Hplain2 & Hstill & Hcalls).
    unfold plainly in Hplain2. rewrite Hplain in Hplain2. injection Hplain2 as <- <-.
    exists self'', e''. split; [exact Hticks|]. split; [exact Hstill|].
    unfold count_calls. rewrite Hcalls, !List.filter_app, !length_app.
    clear. induction n as [|n IH]; cbn in *; lia.
Qed.

Lemma reentrant_run_lifecycle_witness :
  let actions := fun a : nat => match a with O => quiet_action | _ => finishing_action end in
  let self := {| action := None; scheduled_actions := {[0; 1]} |} in
  well_behaved actions (scheduled_actions self) /\
  reentrant_run actions 1000 self (mkEnv tt [])
  = (None, {| action := None; scheduled_actions := {[0]} |},
     mkEnv tt [Execute 1; IsFinished 1 true; End 1 false; Execute 0; IsFinished 0 false]).
Proof.
  intros actions self.
  assert (Hwb : well_behaved actions (scheduled_actions self)).
  { intros a _ w. destruct a as [|a]; repeat split; intros; by eexists _, _. }
  split; [exact Hwb|].
  rewrite (proj1 (reentrant_run_lifecycle actions 1000 self (mkEnv tt []) Hwb)).
  vm_compute. reflexivity.
Defined.

(** C6 as it is written fails for an action that calls the scheduler: the
    action 0 below schedules action 1 from [execute()] and reports
    finished.  The tick calls [end(False)] on it and then raises
    [RuntimeError] before any removal, so the action stays active, and the
    next tick executes and ends it a second time. *)
Lemma scheduling_during_tick_breaks_lifecycle :
  let actions := fun a : nat => match a with O => scheduling_action | _ => quiet_action end in
  let self := {| action := None; scheduled_actions := {[0]} |} in
  let first := reentrant_run actions 1000 self (mkEnv tt []) in
  let second := reentrant_run actions 1000 (snd (fst first)) (snd first) in
  fst (fst first) = Some (RuntimeError "Set changed size during iteration") /\
  calls (snd first) = [Execute 0; Initialize 1; IsFinished 0 true; End 0 false] /\
  0 ∈ scheduled_actions (snd (fst first)) /\
  count_calls is_execute 0 (calls (snd second)) = 2 /\
  count_calls is_end 0 (calls (snd second)) = 2.
Proof.
  intros actions self first second.
  split; [vm_compute; reflexivity|]. split; [vm_compute; reflexivity|].
  split.
  - apply elem_of_elements.
    assert (E : elements (scheduled_actions (snd (fst first))) = [1; 0])
      by (vm_compute; reflexivity).
    rewrite E. set_solver.
  - split; vm_compute; reflexivity.
Qed.

(** X18.  For actions whose lifecycle methods return without raising and
    without calling the scheduler, one tick returns and calls [execute()]
    as many times as there are active actions, [is_finished()] as often,
    and [end()] once per action it removes; these are all the calls it
    makes. *)
Theorem reentrant_run_executes_each_active_action_once {W : Type}
    (actions : nat -> ReentrantAction W) (fuel : nat) (self : ActionScheduler) (e : env W) :
  well_behaved actions (scheduled_actions self) ->
  exists self' e' new,
    reentrant_run actions fuel self e = (None, self', e') /\
    calls e' = calls e ++ new /\
    length (List.filter is_execute new) = size (scheduled_actions self) /\
    length (List.filter is_query new) = size (scheduled_actions self) /\
    length (List.filter is_end new)
    = size (scheduled_actions self) - size (scheduled_actions self') /\
    length new
    = 2 * size (scheduled_actions self)
      + (size (scheduled_actions self) - size (scheduled_actions self')).
Proof.
  intros Hwb.
  destruct (tick_of_plain_actions actions self e) as (Hrun & _ & Hre).
  destruct (plain_run_counts_calls (as_plain actions) self e)
    as (self' & e' & new & Hrun' & Hrest).
  rewrite Hrun in Hrun'. injection Hrun' as <- <-.
  eexists _, _, new. split; [exact (Hre fuel Hwb)|]. exact Hrest.
Qed.

Lemma reentrant_run_executes_each_active_action_once_witness :
  let actions := fun a : nat => match a with O => quiet_action | _ => finishing_action end in
  let self := {| action := None; scheduled_actions := {[0; 1]} |} in
  well_behaved actions (scheduled_actions self) /\
  exists self' e' new,
    reentrant_run actions 1000 self (mkEnv tt []) = (None, self', e') /\
    calls e' = [] ++ new /\
    length (List.filter is_execute new) = size (scheduled_actions self).
Proof.
  intros actions self.
  assert (Hwb : well_behaved actions (scheduled_actions self)).
  { intros a _ w. destruct a as [|a]; repeat split; intros; by eexists _, _. }
  split; [exact Hwb|].
  destruct (reentrant_run_executes_each_active_action_once actions 1000 self
              (mkEnv tt []) Hwb) as (self' & e' & new & Hrun & Hc & Hex & _).
  exists self', e', new. split; [exact Hrun|]. split; [exact Hc|exact Hex].
Defined.

(** X19.  For actions whose lifecycle methods return without raising and
    without calling the scheduler, any number of ticks return without
    raising, never add an action, leave [self.action] alone, only append
    to the record of calls, never call [initialize()], only call actions
    that were active at the start, and pass [False] to every [end()]. *)
Theorem reentrant_ticks_only_run_active_actions {W : Type}
    (actions : nat -> ReentrantAction W) (fuel n : nat) (self : ActionScheduler) (e : env W) :
  well_behaved actions (scheduled_actions self) ->
  exists self' e' new,
    reentrant_ticks actions fuel n self e = (None, self', e') /\
    scheduled_actions self' ⊆ scheduled_actions self /\
    action self' = action self /\
    calls e' = calls e ++ new /\
    Forall (tick_call (scheduled_actions self)) new.
Proof.
  intros Hwb.
  destruct (ticks_of_plain_actions actions fuel n self e Hwb)
    as (self' & e' & Hplain & Hticks).
  destruct (plain_ticks_only_run_active_actions (as_plain actions) n self e)
    as (s2 & e2 & new & Hplain2 & Hrest).
  rewrite Hplain in Hplain2. injection Hplain2 as <- <-.
  exists self', e', new. split; [exact Hticks|]. exact Hrest.
Qed.

Lemma reentrant_ticks_only_run_active_actions_witness :
  let actions := fun a : nat => match a with O => quiet_action | _ => finishing_action end in
  let self := {| action := None; scheduled_actions := {[0; 1]} |} in
  well_behaved actions (scheduled_actions self) /\
  exists self' e' new,
    reentrant_ticks actions 1000 3 self (mkEnv tt []) = (None, self', e') /\
    scheduled_actions self' ⊆ scheduled_actions self /\
    calls e' = [] ++ new /\
    Forall (tick_call (scheduled_actions self)) new.
Proof.
  intros actions self.
  assert (Hwb : well_behaved actions (scheduled_actions self)).
  { intros a _ w. destruct a as [|a]; repeat split; intros; by eexists _, _. }
  split; [exact Hwb|].
  destruct (reentrant_ticks_only_run_active_actions actions 1000 3 self
              (mkEnv tt []) Hwb) as (self' & e' & new & Hrun & Hsub & _ & Hc & Hall).
  exists self', e', new. split; [exact Hrun|]. split; [exact Hsub|].
  split; [exact Hc|exact Hall].
Defined.
